(** * A* grid path finder (pathfinder.py): shallow embedding and properties

    The embedding follows [pathfinder] and [manhattan_distance] of
    [pathfinder.py] statement by statement.  Python integers are [Z], a
    coordinate tuple is a pair [Z * Z], the grid is a list of rows, the
    dictionaries [came_from], [g_score] and [f_score] are finite maps, the
    closed set is a finite set, and the two [while] loops take fuel. *)

From stdpp Require Import gmap list sorting strings.
From Stdlib Require Import ZArith Lia.

Local Open Scope Z_scope.
Set Warnings "-clear-no-such-hyp".

(** ** Python values used by the function *)

(** A coordinate tuple [(row, col)]. *)
Abbreviation cell := (Z * Z)%type.

(** [l[i]] on a Python list: negative subscripts count from the end and a
    subscript outside [-len(l) .. len(l)-1] raises [IndexError] ([None]). *)
Definition getitem {A : Type} (l : list A) (i : Z) : option A :=
  let n := Z.of_nat (length l) in
  if decide (0 <= i < n) then l !! Z.to_nat i
  else if decide (- n <= i < 0) then l !! Z.to_nat (n + i)
  else None.

(** The exceptions the statements of [pathfinder] can raise. *)
Inductive exn : Type := IndexError | KeyError.

(** How a call ends: [return path], [return None], or an exception. *)
Inductive outcome : Type :=
  | Returned (path : option (list cell))
  | Raised (e : exn).

(** ** heapq on tuples [(f, (row, col))]

    [heapq] is used through [heappush], [heappop], truth value and
    iteration for a membership test; tuples are compared
    lexicographically.  The heap is kept as the ascending list of its
    items: [heappop] removes and returns the smallest item, as the library
    documents, and which item that is does not depend on the layout of the
    array, two equal tuples being the same value. *)
Definition entry_le (a b : Z * cell) : bool :=
  if decide (a.1 < b.1) then true
  else if decide (b.1 < a.1) then false
  else if decide (a.2.1 < b.2.1) then true
  else if decide (b.2.1 < a.2.1) then false
  else bool_decide (a.2.2 <= b.2.2).

Fixpoint heappush (heap : list (Z * cell)) (item : Z * cell) : list (Z * cell) :=
  match heap with
  | [] => [item]
  | x :: heap' =>
      if entry_le item x then item :: x :: heap' else x :: heappush heap' item
  end.

Definition heappop (heap : list (Z * cell)) : option ((Z * cell) * list (Z * cell)) :=
  match heap with
  | [] => None
  | x :: heap' => Some (x, heap')
  end.

(** The items of the heap in ascending order. *)
Definition ascending (heap : list (Z * cell)) : Prop :=
  StronglySorted (λ a b, entry_le a b = true) heap.

(** ** manhattan_distance *)
Definition manhattan_distance (a b : cell) : Z :=
  Z.abs (a.1 - b.1) + Z.abs (a.2 - b.2).

(** ** pathfinder *)

(** The objects a call works on.  [grid] is the caller's list, threaded
    through so that a store to it would show; [reads] records, oldest
    first, each subscript pair at which [grid[..][..]] is evaluated. *)
Record state : Type := State {
  grid : list (list Z);
  open_set : list (Z * cell);
  closed_set : gset cell;
  came_from : gmap cell cell;
  g_score : gmap cell Z;
  f_score : gmap cell Z;
  reads : list cell
}.

Definition directions : list (Z * Z) :=
  [(0, 1); (1, 0); (0, -1); (-1, 0); (1, 1); (1, -1); (-1, 1); (-1, -1)].

(** [grid[r][c]]. *)
Definition grid_get (g : list (list Z)) (n : cell) : option Z :=
  match getitem g n.1 with
  | Some row => getitem row n.2
  | None => None
  end.

(** [0 <= neighbor[0] < rows and 0 <= neighbor[1] < cols]. *)
Definition in_bounds (rows cols : Z) (n : cell) : bool :=
  bool_decide (0 <= n.1 < rows) && bool_decide (0 <= n.2 < cols).

(** [neighbor not in [i[1] for i in open_set]], negated. *)
Definition in_open (n : cell) (heap : list (Z * cell)) : bool :=
  bool_decide (n ∈ heap.*2).

(** [tentative_g < g_score.get(neighbor, float('inf'))]. *)
Definition improves (tentative_g : Z) (old : option Z) : bool :=
  match old with
  | Some g => bool_decide (tentative_g < g)
  | None => true
  end.

(** Line 78 evaluates [grid[neighbor[0]][neighbor[1]]]: the subscripts are logged. *)
Definition log_read (n : cell) (st : state) : state :=
  State (grid st) (open_set st) (closed_set st) (came_from st)
        (g_score st) (f_score st) (reads st ++ [n]).

(** Lines 90 to 95: the four stores for an accepted neighbor. *)
Definition record (current neighbor : cell) (tentative_g f : Z) (st : state) : state :=
  State (grid st)
        (heappush (open_set st) (f, neighbor))
        (closed_set st)
        (<[neighbor := current]> (came_from st))
        (<[neighbor := tentative_g]> (g_score st))
        (<[neighbor := f]> (f_score st))
        (reads st).

(** Line 54 leaves [rest] in [open_set]; line 67 is [closed_set.add(current)]. *)
Definition popped (rest : list (Z * cell)) (st : state) : state :=
  State (grid st) rest (closed_set st) (came_from st)
        (g_score st) (f_score st) (reads st).

Definition close (current : cell) (st : state) : state :=
  State (grid st) (open_set st) ({[current]} ∪ closed_set st) (came_from st)
        (g_score st) (f_score st) (reads st).

Section Loop.
Variables (rows cols : Z) (start goal : cell) (obstacle_value : Z).

(** The body of [for dx, dy in directions] for one direction. *)
Definition relax (current : cell) (st : state) (d : Z * Z) : option exn * state :=
  let neighbor := (current.1 + d.1, current.2 + d.2) in
  if negb (in_bounds rows cols neighbor) then (None, st)
  else
    let st := log_read neighbor st in
    match grid_get (grid st) neighbor with
    | None => (Some IndexError, st)
    | Some label =>
        if decide (label = obstacle_value) then (None, st)
        else if decide (neighbor ∈ closed_set st) then (None, st)
        else
          match g_score st !! current with
          | None => (Some KeyError, st)
          | Some g =>
              let tentative_g := g + 1 in
              if negb (in_open neighbor (open_set st))
                 || improves tentative_g (g_score st !! neighbor)
              then
                (None,
                 record current neighbor tentative_g
                        (tentative_g + manhattan_distance neighbor goal) st)
              else (None, st)
          end
    end.

(** [for dx, dy in directions: ...]; an exception leaves the loop. *)
Fixpoint expand (current : cell) (ds : list (Z * Z)) (st : state) : option exn * state :=
  match ds with
  | [] => (None, st)
  | d :: ds' =>
      match relax current st d with
      | (Some e, st') => (Some e, st')
      | (None, st') => expand current ds' st'
      end
  end.

(** [while current in came_from: path.append(current); current = came_from[current]];
    the result is [None] when the fuel does not suffice. *)
Fixpoint walk_back (fuel : nat) (cf : gmap cell cell) (current : cell)
    (path : list cell) : option (list cell) :=
  match cf !! current with
  | None => Some path
  | Some parent =>
      match fuel with
      | O => None
      | S fuel' => walk_back fuel' cf parent (path ++ [current])
      end
  end.

(** [while open_set: ...] followed by [return None]; the result is [None]
    when the fuel does not suffice. *)
Fixpoint search (fuel : nat) (st : state) : option (outcome * state) :=
  match fuel with
  | O => None
  | S fuel' =>
      match heappop (open_set st) with
      | None => Some (Returned None, st)
      | Some ((current_f, current), rest) =>
          let st := popped rest st in
          if decide (current = goal) then
            match walk_back fuel' (came_from st) current [] with
            | None => None
            | Some path => Some (Returned (Some (reverse (path ++ [start]))), st)
            end
          else
            let st := close current st in
            match expand current directions st with
            | (Some e, st') => Some (Raised e, st')
            | (None, st') => search fuel' st'
            end
      end
  end.

End Loop.

(** The state when the loop is first entered (lines 37 to 50). *)
Definition initial (g : list (list Z)) (start goal : cell) : state :=
  let f := manhattan_distance start goal in
  State g (heappush [] (f, start)) ∅ ∅ {[start := 0]} {[start := f]} [].

(** [pathfinder(grid, start, goal, obstacle_value)], with the final state
    of the objects of the call. *)
Definition pathfinder (fuel : nat) (g : list (list Z)) (start goal : cell)
    (obstacle_value : Z) : option (outcome * state) :=
  let rows := Z.of_nat (length g) in
  match getitem g 0 with
  | None => Some (Raised IndexError, State g [] ∅ ∅ ∅ ∅ [])
  | Some row0 =>
      let cols := Z.of_nat (length row0) in
      search rows cols start goal obstacle_value fuel (initial g start goal)
  end.

(** The call ends with [out], leaving the objects of the call as [st]. *)
Definition ends (g : list (list Z)) (start goal : cell) (obstacle_value : Z)
    (out : outcome) (st : state) : Prop :=
  ∃ fuel, pathfinder fuel g start goal obstacle_value = Some (out, st).

(** The call ends with [out]. *)
Definition returns (g : list (list Z)) (start goal : cell) (obstacle_value : Z)
    (out : outcome) : Prop :=
  ∃ fuel, fst <$> pathfinder fuel g start goal obstacle_value = Some out.

(** ** Vocabulary of the properties *)

(** A grid is well formed when it has a first row and every row has the
    length of the first. *)
Definition rectangular (g : list (list Z)) : Prop :=
  match g with
  | [] => False
  | row0 :: _ => Forall (λ row, length row = length row0) g
  end.

(** [len(grid)] and [len(grid[0])], lines 30 and 31. *)
Definition n_rows (g : list (list Z)) : Z := Z.of_nat (length g).
Definition n_cols (g : list (list Z)) : Z := Z.of_nat (length (default [] (head g))).

(** [c] is a cell of the grid. *)
Definition inside (g : list (list Z)) (c : cell) : Prop :=
  0 <= c.1 < n_rows g ∧ 0 <= c.2 < n_cols g.

(** [c] is a cell of the grid whose label is not the obstacle value. *)
Definition free (g : list (list Z)) (obstacle_value : Z) (c : cell) : Prop :=
  inside g c ∧ ∃ label, grid_get g c = Some label ∧ label ≠ obstacle_value.

(** [c] is a cell of the grid that carries the obstacle value. *)
Definition blocked (g : list (list Z)) (obstacle_value : Z) (c : cell) : Prop :=
  inside g c ∧ grid_get g c = Some obstacle_value.

(** [b] is [a] moved by one of the eight offsets. *)
Definition legal_move (a b : cell) : Prop :=
  (b.1 - a.1, b.2 - a.2) ∈ directions.

(** Every consecutive pair of the sequence is a legal move. *)
Fixpoint moves (p : list cell) : Prop :=
  match p with
  | a :: ((b :: _) as p') => legal_move a b ∧ moves p'
  | _ => True
  end.

(** A sequence of moves from [a] to [b] through cells that are not
    obstacles. *)
Definition connects (g : list (list Z)) (obstacle_value : Z) (a b : cell)
    (p : list cell) : Prop :=
  head p = Some a ∧ last p = Some b ∧ moves p ∧ Forall (free g obstacle_value) p.

(** [max(|a.row - b.row|, |a.col - b.col|)]. *)
Definition chebyshev_distance (a b : cell) : Z :=
  Z.max (Z.abs (a.1 - b.1)) (Z.abs (a.2 - b.2)).

(** Following [came_from] from [c]: the cells met, [c] first, up to the
    first cell that is not a key. *)
Inductive chain (cf : gmap cell cell) : cell → list cell → Prop :=
  | chain_end c : cf !! c = None → chain cf c [c]
  | chain_step c parent l :
      cf !! c = Some parent → chain cf parent l → chain cf c (c :: l).

(** No cell of the grid carries the obstacle value. *)
Definition obstacle_free (g : list (list Z)) (obstacle_value : Z) : Prop :=
  Forall (Forall (λ label, label ≠ obstacle_value)) g.

(** The offset that takes [c] one step nearer to [goal] in each
    coordinate that differs, and the neighbor of [c] at that offset. *)
Definition heading (goal c : cell) : Z * Z :=
  (Z.sgn (goal.1 - c.1), Z.sgn (goal.2 - c.2)).

Definition toward (goal c : cell) : cell :=
  (c.1 + (heading goal c).1, c.2 + (heading goal c).2).

(** Five rows of five zeros with the obstacle value 2 in column 2 of rows
    0 to 3. *)
Definition wall_grid : list (list Z) :=
  [[0; 0; 2; 0; 0];
   [0; 0; 2; 0; 0];
   [0; 0; 2; 0; 0];
   [0; 0; 2; 0; 0];
   [0; 0; 0; 0; 0]].

(** The path the call returns on [wall_grid] from (0, 0) to (0, 4). *)
Definition wall_path : list cell :=
  [(0, 0); (1, 1); (2, 1); (3, 1); (4, 2); (3, 3); (2, 4); (1, 4); (0, 4)].

(** The cells of the grid, row by row. *)
Definition cells_of (g : list (list Z)) : list cell :=
  r ← seqZ 0 (n_rows g); (λ c, (r, c)) <$> seqZ 0 (n_cols g).

(** ** The termination measure

    Cells of the grid without a g-score, then the sum of the recorded
    g-scores, then the size of the frontier, compared lexicographically. *)
Definition unknown (gs : gmap cell Z) (c : cell) : nat :=
  match gs !! c with None => 1 | Some _ => 0 end.

Definition known (gs : gmap cell Z) (c : cell) : nat :=
  match gs !! c with None => 0 | Some v => Z.to_nat v end.

Definition mu1 (st : state) : nat := sum_list_with (unknown (g_score st)) (cells_of (grid st)).
Definition mu2 (st : state) : nat := sum_list_with (known (g_score st)) (cells_of (grid st)).
Definition mu3 (st : state) : nat := length (open_set st).

(** [st'] is not above [st], and has the same frontier size when the
    scores did not move. *)
Definition settled (st' st : state) : Prop :=
  (mu1 st' < mu1 st)%nat
  ∨ (mu1 st' = mu1 st
     ∧ ((mu2 st' < mu2 st)%nat ∨ (mu2 st' = mu2 st ∧ mu3 st' = mu3 st))).

(** A set of states that holds every state in which the call evaluates
    the condition of line 89: the state at the first entry into the loop,
    the state after lines 54 and 67 of an iteration that does not return,
    and the state after the body of the for loop for a direction and a
    closed cell. *)
Inductive visits (g : list (list Z)) (start goal : cell) (obstacle_value : Z) :
    state → Prop :=
  | visits_initial : visits g start goal obstacle_value (initial g start goal)
  | visits_close st f current rest :
      visits g start goal obstacle_value st →
      open_set st = (f, current) :: rest → current ≠ goal →
      visits g start goal obstacle_value (close current (popped rest st))
  | visits_relax st current d st' :
      visits g start goal obstacle_value st →
      current ∈ closed_set st → d ∈ directions →
      relax (n_rows g) (n_cols g) goal obstacle_value current st d = (None, st') →
      visits g start goal obstacle_value st'.

(** ** The invariants of the while loop *)

Section Predicates.
Variables (g0 : list (list Z)) (start goal : cell) (obstacle_value : Z).

(** What holds of the objects of the call whenever the for loop is about
    to take a direction, and at the head of the while loop: every cell of
    the frontier and of the closed set has a g-score, the scores are not
    negative and belong to such cells, [came_from] leads from a cell that
    is not an obstacle to a closed neighbor, the chain of a closed cell
    stays closed and repeats no cell, and every read was of a cell of the
    grid next to a closed cell. *)
Record inv (st : state) : Prop := Inv {
  inv_grid : grid st = g0;
  inv_open : ∀ e, e ∈ open_set st →
    is_Some (g_score st !! e.2) ∧ (e.2 = start ∨ is_Some (came_from st !! e.2));
  inv_closed : ∀ c, c ∈ closed_set st →
    is_Some (g_score st !! c) ∧ c ≠ goal ∧ (c = start ∨ is_Some (came_from st !! c));
  inv_g : ∀ c v, g_score st !! c = Some v →
    0 <= v ∧ (c ∈ (open_set st).*2 ∨ c ∈ closed_set st);
  inv_start : came_from st !! start = None;
  inv_parent : ∀ n p, came_from st !! n = Some p →
    p ∈ closed_set st ∧ legal_move p n ∧ free g0 obstacle_value n;
  inv_chain : ∀ c, c ∈ closed_set st →
    ∃ l, chain (came_from st) c l ∧ (∀ x, x ∈ l → x ∈ closed_set st) ∧ NoDup l;
  inv_reads : ∀ n, n ∈ reads st →
    inside g0 n ∧ ∃ c, c ∈ closed_set st ∧ legal_move c n
}.

(** What line 64 returns: a sequence from [start] to [goal]. *)
Definition route (p : list cell) : Prop :=
  head p = Some start ∧ last p = Some goal ∧ moves p ∧ NoDup p
  ∧ Forall (λ c, c = start ∨ free g0 obstacle_value c) p.

(** The invariant with the one thing that differs before the first pop:
    [start] is either closed or the only cell of the frontier. *)
Definition loop_inv (st : state) : Prop :=
  inv st ∧ (start ∈ closed_set st ∨ ∀ e, e ∈ open_set st → e.2 = start).

(** What holds when the call returns. *)
Definition post (r : option (list cell)) (st : state) : Prop :=
  grid st = g0
  ∧ (∀ n, n ∈ reads st → inside g0 n ∧ ∃ c, c ∈ closed_set st ∧ legal_move c n)
  ∧ match r with Some p => route p | None => True end.

(** The state at the head of the loop after [k] iterations: the frontier
    has [x] strictly first, [x] is [k] moves from start and on a
    shortest way to goal, and its chain has [k + 1] cells. *)
Record on_track (k : Z) (x : cell) (st : state) : Prop := OnTrack {
  ot_grid : grid st = g0;
  ot_open : ∃ rest,
    open_set st = (k + manhattan_distance x goal, x) :: rest
    ∧ Forall (λ e, k + manhattan_distance x goal < e.1) rest;
  ot_g : g_score st !! x = Some k;
  ot_inside : inside g0 x;
  ot_from : chebyshev_distance start x = k;
  ot_to : chebyshev_distance start goal = k + chebyshev_distance x goal;
  ot_closed : ∀ c, c ∈ closed_set st → chebyshev_distance start c < k;
  ot_near : ∀ e, e ∈ open_set st → chebyshev_distance start e.2 <= k;
  ot_chain : ∃ l, chain (came_from st) x l ∧ Z.of_nat (length l) = k + 1
                  ∧ ∀ y, y ∈ l → y = x ∨ y ∈ closed_set st
}.

Section Expansion.
Variables (k : Z) (x : cell).

(** The key of the neighbor toward the goal. *)
Definition best : Z := k + 1 + manhattan_distance (toward goal x) goal.

(** While [x] is expanded. *)
Record mid (st : state) : Prop := Mid {
  mid_grid : grid st = g0;
  mid_g : g_score st !! x = Some k;
  mid_x : x ∈ closed_set st;
  mid_closed : ∀ c, c ∈ closed_set st → chebyshev_distance start c <= k;
  mid_near : ∀ e, e ∈ open_set st → chebyshev_distance start e.2 <= k + 1;
  mid_chain : ∃ l, chain (came_from st) x l ∧ Z.of_nat (length l) = k + 1
                   ∧ ∀ y, y ∈ l → y ∈ closed_set st
}.

(** Before the neighbor toward the goal is pushed, and after. *)
Definition pending (st : state) : Prop :=
  Forall (λ e, best < e.1 ∧ e.2 ≠ toward goal x) (open_set st).

Definition pushed (st : state) : Prop :=
  ∃ rest, open_set st = (best, toward goal x) :: rest
          ∧ Forall (λ e, best < e.1) rest
          ∧ g_score st !! toward goal x = Some (k + 1)
          ∧ came_from st !! toward goal x = Some x.

Definition frontier (b : bool) (st : state) : Prop :=
  if b then pushed st else pending st.

End Expansion.
End Predicates.

(** ** Vocabulary of the further properties *)

(** Every free neighbor of a closed cell is closed or in the frontier,
    but for the neighbors of [current] in the directions [todo] that the
    for loop has still to take. *)
Definition covered (g : list (list Z)) (obstacle_value : Z) (todo : list (Z * Z))
    (current : cell) (st : state) : Prop :=
  ∀ c n, c ∈ closed_set st → legal_move c n → free g obstacle_value n →
    n ∈ closed_set st ∨ n ∈ (open_set st).*2
    ∨ (c = current ∧ (n.1 - c.1, n.2 - c.2) ∈ todo).

(** ** generate_grid and the set-up of the program

    The module random is a generator with a state.  It is modelled as the
    sequence of the integers it will draw and the number of draws made; a
    computation that draws takes both and returns its result, or the
    exception raised, with the new number of draws. *)
Inductive failure : Type :=
  | ValueError
  | Other (e : exn).

Definition rand (A : Type) : Type := (nat → Z) → nat → (failure + A) * nat.

Definition rand_ret {A : Type} (x : A) : rand A := λ _ i, (inr x, i).

Definition rand_raise {A : Type} (e : failure) : rand A := λ _ i, (inl e, i).

Definition rand_bind {A B : Type} (m : rand A) (k : A → rand B) : rand B :=
  λ draws i,
    match m draws i with
    | (inl e, j) => (inl e, j)
    | (inr x, j) => k x draws j
    end.

Notation "x <-- m ;; k" := (rand_bind m (λ x, k))
  (at level 100, m at next level, right associativity).

(** [random.randint(a, b)]: an integer [N] with [a <= N <= b], the next
    draw brought into that range; ValueError when the range is empty. *)
Definition randint (a b : Z) : rand Z :=
  λ draws i,
    if decide (a <= b) then (inr (a + draws i `mod` (b - a + 1)), S i)
    else (inl ValueError, i).

(** [[m for _ in range(n)]], and a for loop that appends [m] [n] times. *)
Fixpoint rand_list {A : Type} (n : nat) (m : rand A) : rand (list A) :=
  match n with
  | O => rand_ret []
  | S n' => x <-- m;; l <-- rand_list n' m;; rand_ret (x :: l)
  end.

(** [l[i] = x] on a Python list. *)
Definition setitem {A : Type} (l : list A) (i : Z) (x : A) : option (list A) :=
  let n := Z.of_nat (length l) in
  if decide (0 <= i < n) then Some (<[Z.to_nat i := x]> l)
  else if decide (- n <= i < 0) then Some (<[Z.to_nat (n + i) := x]> l)
  else None.

(** [grid[r][c] = x], the row and then the cell being subscripted. *)
Definition grid_set (g : list (list Z)) (c : cell) (x : Z) : option (list (list Z)) :=
  match getitem g c.1 with
  | None => None
  | Some row =>
      match setitem row c.2 x with
      | None => None
      | Some row' => setitem g c.1 row'
      end
  end.

(** Lines 13 and 14: [for i in range(n): grid[randint(0, size-1)][randint(0, size-1)] = 2].
    The row is subscripted before the column is drawn. *)
Fixpoint place_obstacles (n : nat) (size : Z) (g : list (list Z)) : rand (list (list Z)) :=
  match n with
  | O => rand_ret g
  | S n' =>
      r <-- randint 0 (size - 1);;
      match getitem g r with
      | None => rand_raise (Other IndexError)
      | Some row =>
          c <-- randint 0 (size - 1);;
          match setitem row c 2 with
          | None => rand_raise (Other IndexError)
          | Some row' =>
              match setitem g r row' with
              | None => rand_raise (Other IndexError)
              | Some g' => place_obstacles n' size g'
              end
          end
      end
  end.

(** [generate_grid(size)]. *)
Definition generate_grid (size : Z) : rand (list (list Z)) :=
  obstacle_count <-- randint 1 (size * size / 8);;
  g <-- rand_list (Z.to_nat size) (rand_list (Z.to_nat size) (randint 0 2));;
  place_obstacles (Z.to_nat obstacle_count) size g.

(** An assignment [grid[r][c] = x] of the main block. *)
Definition assign (g : list (list Z)) (c : cell) (x : Z) : rand (list (list Z)) :=
  match grid_set g c x with
  | None => rand_raise (Other IndexError)
  | Some g' => rand_ret g'
  end.

(** Lines 178 to 183 of the main block: the grid, start and goal handed
    to the window. *)
Definition main_setup : rand (list (list Z) * cell * cell) :=
  let grid_size := 20 in
  g <-- generate_grid grid_size;;
  let start := (0, 0) in
  r <-- randint 1 (grid_size - 1);;
  c <-- randint 1 (grid_size - 1);;
  let goal := (r, c) in
  g <-- assign g start 0;;
  g <-- assign g goal 0;;
  rand_ret (g, start, goal).

(** A grid of [size] rows of [size] labels, each 0, 1 or 2. *)
Definition square (size : Z) (g : list (list Z)) : Prop :=
  Z.of_nat (length g) = size
  ∧ Forall (λ row, Z.of_nat (length row) = size ∧ Forall (λ v, 0 <= v <= 2) row) g.

(** ** GridWindow

    Of the window the model keeps what create_grid and on_button_clicked
    compute: the attributes [start], [goal], [grid] and [cell_size], and
    the labels that [grid_layout] holds, in the order of [addWidget]. *)

(** [GridWindow.colors]. *)
Definition colors : gmap Z string :=
  <[0 := "green"]> (<[1 := "darkgreen"]> (<[2 := "black"]> ∅)).

(** A QLabel as lines 153 to 164 make it: its text, the width and height
    of [setFixedSize], its style sheet, and its row and column in the
    layout (the alignment is always [Qt.AlignCenter]). *)
Record label_widget : Type := Label {
  text : string;
  width : Z;
  height : Z;
  sheet : string;
  lrow : Z;
  lcol : Z
}.

Record window : Type := Window {
  w_start : cell;
  w_goal : cell;
  w_grid : list (list Z);
  w_cell_size : Z;
  grid_layout : list label_widget
}.

(** The window with other labels in its layout. *)
Definition relayout (self : window) (labels : list label_widget) : window :=
  Window (w_start self) (w_goal self) (w_grid self) (w_cell_size self) labels.

(** The style sheets of lines 157 to 163. *)
Definition style_sheet (color : string) : string :=
  "border: 1px solid black; background-color: " +:+ color +:+ ";".

(** The if chain of lines 156 to 163: the style sheet of a cell, or the
    exception of [self.colors[grid[row][col]]]. *)
Definition sheet_for (self : window) (path : list cell) (row col : Z) : exn + string :=
  if decide ((row, col) = w_start self) then inr (style_sheet "blue")
  else if decide ((row, col) = w_goal self) then inr (style_sheet "red")
  else if bool_decide ((row, col) ∈ path) then inr (style_sheet "yellow")
  else
    match grid_get (w_grid self) (row, col) with
    | None => inl IndexError
    | Some v =>
        match colors !! v with
        | None => inl KeyError
        | Some color => inr (style_sheet color)
        end
    end.

(** The body of the inner loop, lines 152 to 164. *)
Definition add_cell (path : list cell) (row col : Z) (self : window) : option exn * window :=
  let label := if bool_decide ((row, col) ∈ path) then "X" else "" in
  match sheet_for self path row col with
  | inl e => (Some e, self)
  | inr s =>
      (None,
       relayout self
         (grid_layout self ++ [Label label (w_cell_size self) (w_cell_size self) s row col]))
  end.

(** [for x in xs: body]; an exception leaves the loop. *)
Fixpoint for_each {A : Type} (xs : list A) (body : A → window → option exn * window)
    (self : window) : option exn * window :=
  match xs with
  | [] => (None, self)
  | x :: xs' =>
      match body x self with
      | (Some e, self') => (Some e, self')
      | (None, self') => for_each xs' body self'
      end
  end.

(** [create_grid(self, path)]; [path] is [None] when the argument is left
    out. *)
Definition create_grid (self : window) (path : option (list cell)) : option exn * window :=
  let path := default [] path in
  let self := relayout self [] in
  let ROWS := Z.of_nat (length (w_grid self)) in
  match getitem (w_grid self) 0 with
  | None => (Some IndexError, self)
  | Some row0 =>
      let COLS := Z.of_nat (length row0) in
      for_each (seqZ 0 ROWS)
        (λ row, for_each (seqZ 0 COLS) (λ col, add_cell path row col)) self
  end.

(** [GridWindow(grid, cell_size, start, goal)], up to line 124. *)
Definition new_window (g : list (list Z)) (cell_size : Z) (start goal : cell) :
    option exn * window :=
  create_grid (Window start goal g cell_size []) None.


(** The rows and columns at which the labels of a layout were added. *)
Definition places (labels : list label_widget) : list cell :=
  (λ w, (lrow w, lcol w)) <$> labels.

(** A label as the inner loop makes it for its place, for a window with
    the attributes of [self] and the path [path]. *)
Definition drawn (self : window) (path : list cell) (w : label_widget) : Prop :=
  sheet_for self path (lrow w) (lcol w) = inr (sheet w)
  ∧ text w = (if bool_decide ((lrow w, lcol w) ∈ path) then "X" else "")
  ∧ width w = w_cell_size self ∧ height w = w_cell_size self.

(** ** heapq and subscripts *)

Lemma heappush_Permutation heap item : heappush heap item ≡ₚ item :: heap.
Proof.
  induction heap as [|x heap IH]; simpl; [done|].
  destruct (entry_le item x); [done|].
  rewrite IH. apply Permutation_swap.
Qed.

Lemma elem_of_heappush heap item e :
  e ∈ heappush heap item ↔ e = item ∨ e ∈ heap.
Proof. rewrite heappush_Permutation. apply elem_of_cons. Qed.

Lemma length_heappush heap item : length (heappush heap item) = S (length heap).
Proof. by rewrite heappush_Permutation. Qed.

Lemma elem_of_heappush_cells heap item (c : cell) :
  c ∈ (heappush heap item).*2 ↔ c = item.2 ∨ c ∈ heap.*2.
Proof. rewrite heappush_Permutation. rewrite fmap_cons. apply elem_of_cons. Qed.

(** An item below every item of the heap comes out first. *)
Lemma heappush_least heap item :
  Forall (λ e, item.1 < e.1) heap → heappush heap item = item :: heap.
Proof.
  destruct heap as [|x heap]; [done|].
  intros H. apply Forall_cons in H as [H _]. simpl.
  unfold entry_le. by rewrite decide_True.
Qed.

(** An item above the first item of the heap leaves it first. *)
Lemma heappush_above x heap item :
  x.1 < item.1 → heappush (x :: heap) item = x :: heappush heap item.
Proof.
  intros H. simpl. unfold entry_le.
  rewrite decide_False by lia. by rewrite decide_True.
Qed.

(** The comparison of tuples is a total order, [heappush] keeps the
    items ascending and [heappop] takes the least. *)
Lemma entry_le_total a b : entry_le a b = false → entry_le b a = true.
Proof.
  unfold entry_le.
  repeat case_decide; rewrite ?bool_decide_eq_false, ?bool_decide_eq_true;
    try done; lia.
Qed.

Lemma entry_le_trans a b c :
  entry_le a b = true → entry_le b c = true → entry_le a c = true.
Proof.
  unfold entry_le.
  repeat case_decide; rewrite ?bool_decide_eq_true; try done; lia.
Qed.

Lemma entry_le_antisym a b : entry_le a b = true → entry_le b a = true → a = b.
Proof.
  destruct a as [fa [ra ca]], b as [fb [rb cb]]. unfold entry_le. simpl.
  repeat case_decide; rewrite ?bool_decide_eq_true; try done; try lia.
  intros. repeat f_equal; lia.
Qed.

Lemma heappush_ascending heap item : ascending heap → ascending (heappush heap item).
Proof.
  unfold ascending. induction heap as [|x heap IH]; simpl; intros Hs.
  { repeat constructor. }
  apply StronglySorted_inv in Hs as [Hs Hx].
  destruct (entry_le item x) eqn:E.
  - constructor; [by constructor|]. constructor; [done|].
    eapply Forall_impl; [exact Hx|]. intros e He. by eapply entry_le_trans.
  - constructor; [by apply IH|].
    apply Forall_forall. intros e [->|He]%elem_of_heappush.
    + by apply entry_le_total.
    + rewrite Forall_forall in Hx. by apply Hx.
Qed.

(** [heappop] returns the smallest item and leaves a heap. *)
Lemma heappop_least heap x rest :
  ascending heap → heappop heap = Some (x, rest) →
  heap ≡ₚ x :: rest ∧ Forall (λ e, entry_le x e = true) rest ∧ ascending rest.
Proof.
  unfold ascending. destruct heap as [|y heap]; [done|]. simpl.
  intros [Hs Hy]%StronglySorted_inv [= <- <-]. done.
Qed.


Lemma getitem_Some {A} (l : list A) (i : Z) :
  0 <= i < Z.of_nat (length l) → is_Some (getitem l i).
Proof.
  intros H. unfold getitem. rewrite decide_True by done.
  apply lookup_lt_is_Some. lia.
Qed.

Lemma getitem_elem_of {A} (l : list A) (i : Z) (x : A) :
  getitem l i = Some x → x ∈ l.
Proof.
  unfold getitem. intros H.
  repeat case_decide; try done; eapply list_elem_of_lookup_2; eauto.
Qed.

Lemma rectangular_row g row :
  rectangular g → row ∈ g → Z.of_nat (length row) = n_cols g.
Proof.
  unfold rectangular, n_cols. destruct g as [|row0 g]; [done|].
  intros H Hin. rewrite Forall_forall in H. simpl. f_equal. by apply H.
Qed.

(** On a well-formed grid a subscript pair that passes the bounds check
    of line 74 reads a label. *)
Lemma grid_get_inside g c :
  rectangular g → inside g c → is_Some (grid_get g c).
Proof.
  intros Hr [H1 H2]. unfold grid_get.
  destruct (getitem_Some g c.1 H1) as [row Hrow]. rewrite Hrow.
  apply getitem_Some. rewrite (rectangular_row g row Hr); [done|].
  by eapply getitem_elem_of.
Qed.

Lemma in_bounds_inside g c :
  in_bounds (n_rows g) (n_cols g) c = true ↔ inside g c.
Proof.
  unfold in_bounds, inside. rewrite andb_true_iff, !bool_decide_eq_true. done.
Qed.

(** ** came_from chains *)

Lemma chain_head cf c l : chain cf c l → ∃ l', l = c :: l'.
Proof. destruct 1; eauto. Qed.

Lemma chain_insert_ne cf c l n p :
  chain cf c l → n ∉ l → chain (<[n := p]> cf) c l.
Proof.
  induction 1 as [c Hc|c parent l Hc Hl IH]; intros Hn.
  - apply chain_end. rewrite lookup_insert_ne; [done|]. set_solver.
  - apply chain_step with parent.
    + rewrite lookup_insert_ne; [done|]. set_solver.
    + apply IH. set_solver.
Qed.

Lemma chain_last cf c l : chain cf c l → ∃ z, last l = Some z ∧ cf !! z = None.
Proof.
  induction 1 as [c Hc|c parent l Hc Hl (z & Hz & Hnone)].
  - by exists c.
  - exists z. split; [|done].
    destruct (chain_head _ _ _ Hl) as [l' ->]. done.
Qed.

(** The loop of lines 59 to 61 appends the chain of [current] without its
    last cell, given fuel for it. *)
Lemma walk_back_chain cf c l :
  chain cf c l →
  ∀ fuel path, (length l ≤ S fuel)%nat →
    ∃ l' z, l = l' ++ [z] ∧ walk_back fuel cf c path = Some (path ++ l').
Proof.
  induction 1 as [c Hc|c parent l Hc Hl IH]; intros fuel path Hfuel.
  - exists [], c. split; [done|].
    destruct fuel; simpl; rewrite Hc; by rewrite app_nil_r.
  - simpl in Hfuel. destruct fuel as [|fuel].
    { destruct Hl; simpl in Hfuel; lia. }
    destruct (IH fuel (path ++ [c])) as (l' & z & -> & Hw); [lia|].
    exists (c :: l'), z. split; [done|].
    simpl. rewrite Hc, Hw. by rewrite <- app_assoc.
Qed.

Lemma walk_back_mono cf fuel fuel' c path r :
  walk_back fuel cf c path = Some r → (fuel ≤ fuel')%nat →
  walk_back fuel' cf c path = Some r.
Proof.
  revert fuel' c path. induction fuel as [|fuel IH]; intros fuel' c path H Hle.
  - simpl in H. destruct (cf !! c) eqn:E; [done|].
    destruct fuel'; simpl; by rewrite E.
  - destruct fuel' as [|fuel']; [lia|].
    simpl in *. destruct (cf !! c); [|done].
    apply IH; [done|lia].
Qed.

(** ** One iteration of the while loop *)

Section Unfold.
Variables (rows cols : Z) (start goal : cell) (obstacle_value : Z).

Lemma search_empty fuel st :
  open_set st = [] →
  search rows cols start goal obstacle_value (S fuel) st = Some (Returned None, st).
Proof. intros H. cbn [search]. by rewrite H. Qed.

Lemma search_goal fuel st f rest :
  open_set st = (f, goal) :: rest →
  search rows cols start goal obstacle_value (S fuel) st =
    match walk_back fuel (came_from st) goal [] with
    | None => None
    | Some path => Some (Returned (Some (reverse (path ++ [start]))), popped rest st)
    end.
Proof.
  intros H. cbn [search]. rewrite H. cbn [heappop].
  by rewrite decide_True.
Qed.

Lemma search_next fuel st f current rest :
  open_set st = (f, current) :: rest → current ≠ goal →
  search rows cols start goal obstacle_value (S fuel) st =
    match expand rows cols goal obstacle_value current directions
                 (close current (popped rest st)) with
    | (Some e, st') => Some (Raised e, st')
    | (None, st') => search rows cols start goal obstacle_value fuel st'
    end.
Proof.
  intros H Hne. cbn [search]. rewrite H. cbn [heappop].
  by rewrite decide_False.
Qed.

(** More fuel does not change a result. *)
Lemma search_mono fuel fuel' st r :
  search rows cols start goal obstacle_value fuel st = Some r →
  (fuel ≤ fuel')%nat →
  search rows cols start goal obstacle_value fuel' st = Some r.
Proof.
  revert fuel' st. induction fuel as [|fuel IH]; intros fuel' st H Hle; [done|].
  destruct fuel' as [|fuel']; [lia|].
  destruct (open_set st) as [|[f current] rest] eqn:Hopen.
  { rewrite search_empty in H by done. by rewrite search_empty. }
  destruct (decide (current = goal)) as [->|Hne].
  - rewrite (search_goal fuel _ _ _ Hopen) in H.
    rewrite (search_goal fuel' _ _ _ Hopen).
    destruct (walk_back fuel (came_from st) goal []) as [path|] eqn:Hw;
      [|discriminate H].
    by rewrite (walk_back_mono _ _ fuel' _ _ _ Hw) by lia.
  - rewrite (search_next fuel _ _ _ _ Hopen Hne) in H.
    rewrite (search_next fuel' _ _ _ _ Hopen Hne).
    destruct (expand rows cols goal obstacle_value current directions
                (close current (popped rest st))) as [[e|] st']; [exact H|].
    apply IH; [done|lia].
Qed.

Lemma search_deterministic fuel fuel' st r r' :
  search rows cols start goal obstacle_value fuel st = Some r →
  search rows cols start goal obstacle_value fuel' st = Some r' →
  r = r'.
Proof.
  intros H H'.
  apply (search_mono _ (fuel `max` fuel')%nat) in H; [|lia].
  apply (search_mono _ (fuel `max` fuel')%nat) in H'; [|lia].
  congruence.
Qed.

End Unfold.

(** The frontier stays ascending through the call, so that each
    [heappop] returns its smallest item. *)
Lemma relax_ascending rows cols goal obstacle_value current st d :
  ascending (open_set st) →
  ascending (open_set (relax rows cols goal obstacle_value current st d).2).
Proof.
  intros Hs. unfold relax.
  repeat (case_match; simpl; try done). by apply heappush_ascending.
Qed.

Lemma expand_ascending rows cols goal obstacle_value current ds st :
  ascending (open_set st) →
  ascending (open_set (expand rows cols goal obstacle_value current ds st).2).
Proof.
  revert st. induction ds as [|d ds IH]; intros st Hs; simpl; [done|].
  pose proof (relax_ascending rows cols goal obstacle_value current st d Hs) as H.
  destruct (relax _ _ _ _ _ _ _) as [[e|] st1]; simpl in *; [done|].
  by apply IH.
Qed.

Lemma initial_ascending g start goal : ascending (open_set (initial g start goal)).
Proof. repeat constructor. Qed.

(** ** Sums over the cells of the grid *)

Lemma sum_list_with_le {A} (f h : A → nat) (l : list A) :
  (∀ x, x ∈ l → (f x ≤ h x)%nat) → (sum_list_with f l ≤ sum_list_with h l)%nat.
Proof.
  induction l as [|a l IH]; simpl; intros H; [lia|].
  pose proof (H a (list_elem_of_here _ _)).
  assert (sum_list_with f l ≤ sum_list_with h l)%nat; [|lia].
  apply IH. intros x Hx. apply H. by right.
Qed.

Lemma sum_list_with_lt {A} (f h : A → nat) (l : list A) (a : A) :
  (∀ x, x ∈ l → (f x ≤ h x)%nat) → a ∈ l → (f a < h a)%nat →
  (sum_list_with f l < sum_list_with h l)%nat.
Proof.
  induction l as [|b l IH]; simpl; intros H Ha Hlt; [by apply elem_of_nil in Ha|].
  pose proof (H b (list_elem_of_here _ _)).
  assert (∀ x, x ∈ l → (f x ≤ h x)%nat) as Hl by (intros x Hx; apply H; by right).
  apply elem_of_cons in Ha as [->|Ha].
  - pose proof (sum_list_with_le f h l Hl). lia.
  - pose proof (IH Hl Ha Hlt). lia.
Qed.

Lemma elem_of_cells_of g c : c ∈ cells_of g ↔ inside g c.
Proof.
  unfold cells_of, inside. rewrite list_elem_of_bind. split.
  - intros (r & Hc & Hr). apply list_elem_of_fmap in Hc as (k & -> & Hk).
    apply elem_of_seqZ in Hr, Hk. simpl. lia.
  - intros [H1 H2]. exists c.1. split.
    + apply list_elem_of_fmap. exists c.2. split; [by destruct c|].
      apply elem_of_seqZ. lia.
    + apply elem_of_seqZ. lia.
Qed.

Lemma settled_refl st : settled st st.
Proof. unfold settled. lia. Qed.

Lemma settled_trans st1 st2 st3 : settled st1 st2 → settled st2 st3 → settled st1 st3.
Proof. unfold settled. lia. Qed.

(** ** The loop invariant *)

Section Invariant.
Variables (g0 : list (list Z)) (start goal : cell) (obstacle_value : Z).
Hypothesis Hrect : rectangular g0.

Local Abbreviation inv := (inv g0 start goal obstacle_value).
Local Abbreviation route := (route g0 start goal obstacle_value).
Local Abbreviation loop_inv := (loop_inv g0 start goal obstacle_value).
Local Abbreviation post := (post g0 start goal obstacle_value).
Local Abbreviation inv_grid := (inv_grid g0 start goal obstacle_value).
Local Abbreviation inv_open := (inv_open g0 start goal obstacle_value).
Local Abbreviation inv_closed := (inv_closed g0 start goal obstacle_value).
Local Abbreviation inv_parent := (inv_parent g0 start goal obstacle_value).
Local Abbreviation inv_chain := (inv_chain g0 start goal obstacle_value).
Local Abbreviation inv_reads := (inv_reads g0 start goal obstacle_value).

Lemma inv_log_read st current n :
  inv st → inside g0 n → current ∈ closed_set st → legal_move current n →
  inv (log_read n st).
Proof.
  intros [Hgrid Hop Hcl Hgs Hst Hpar Hch Hrd] Hn Hc Hm. split; simpl; try done.
  intros x Hx. apply elem_of_app in Hx as [Hx|Hx]; [by auto|].
  apply list_elem_of_singleton in Hx as ->. eauto.
Qed.

Lemma inv_record st current n g f :
  inv st → start ∈ closed_set st → current ∈ closed_set st →
  n ∉ closed_set st → g_score st !! current = Some g →
  free g0 obstacle_value n → legal_move current n →
  inv (record current n (g + 1) f st).
Proof.
  intros [Hgrid Hop Hcl Hgs Hst Hpar Hch Hrd] Hs Hc Hn Hg Hfree Hm.
  assert (n ≠ start) as Hns by (intros ->; done).
  split; simpl; try done.
  - intros e He. apply elem_of_heappush in He as [->|He]; simpl.
    + rewrite !lookup_insert_eq. eauto.
    + destruct (Hop e He) as [H1 H2]. split.
      * rewrite lookup_insert. case_decide; eauto.
      * destruct H2 as [H2|H2]; [by left|right].
        rewrite lookup_insert. case_decide; eauto.
  - intros c Hcc. destruct (Hcl c Hcc) as (H1 & H2 & H3).
    split_and!; [|done|].
    + rewrite lookup_insert. case_decide; eauto.
    + destruct H3 as [H3|H3]; [by left|right].
      rewrite lookup_insert. case_decide; eauto.
  - intros c v. rewrite lookup_insert. case_decide as E.
    + intros [= <-]. subst c. destruct (Hgs current g Hg) as [H0 _].
      split; [lia|]. left. apply elem_of_heappush_cells. by left.
    + intros Hv. destruct (Hgs c v Hv) as [H0 H1]. split; [done|].
      destruct H1 as [H1|H1]; [left|by right].
      apply elem_of_heappush_cells. by right.
  - by rewrite lookup_insert_ne.
  - intros m p. rewrite lookup_insert. case_decide as E.
    + intros [= <-]. by subst m.
    + apply Hpar.
  - intros c Hcc. destruct (Hch c Hcc) as (l & Hl & Hin & Hnd).
    exists l. split_and!; [|done..].
    apply chain_insert_ne; [done|]. intros Hnl. apply Hn. by apply Hin.
Qed.

(** The condition of line 89 holds, for a neighbor that is not closed,
    only when the neighbor has no g-score yet or the new one is lower;
    the new score is not negative. *)
Lemma record_condition st current n g :
  inv st → n ∉ closed_set st → g_score st !! current = Some g →
  negb (in_open n (open_set st)) || improves (g + 1) (g_score st !! n) = true →
  0 <= g + 1
  ∧ (g_score st !! n = None ∨ ∃ v, g_score st !! n = Some v ∧ g + 1 < v).
Proof.
  intros [Hgrid Hop Hcl Hgs Hst Hpar Hch Hrd] Hnc Hg Hcond.
  destruct (Hgs current g Hg) as [Hg0 _]. split; [lia|].
  destruct (g_score st !! n) as [v|] eqn:Hv; [right|by left].
  exists v. split; [done|].
  destruct (Hgs n v Hv) as [Hv0 Hv1].
  apply orb_true_iff in Hcond as [Hcond|Hcond].
  - apply negb_true_iff in Hcond. unfold in_open in Hcond.
    apply bool_decide_eq_false in Hcond. by destruct Hv1.
  - simpl in Hcond. by apply bool_decide_eq_true in Hcond.
Qed.

(** A store to g_score either gives a cell of the grid its first score
    or lowers the score it has. *)
Lemma settled_record st current n g f :
  inv st → inside g0 n → n ∉ closed_set st → g_score st !! current = Some g →
  negb (in_open n (open_set st)) || improves (g + 1) (g_score st !! n) = true →
  settled (record current n (g + 1) f st) st.
Proof.
  intros Hinv Hn Hnc Hg Hcond. unfold settled, mu1, mu2. simpl.
  assert (n ∈ cells_of (grid st)) as Hcell
    by (rewrite (inv_grid _ Hinv); by apply elem_of_cells_of).
  destruct (record_condition st current n g Hinv Hnc Hg Hcond) as [Hg0 [Hv|(v & Hv & Hlt)]].
  - left. apply sum_list_with_lt with n; [|done|].
    + intros x _. unfold unknown. rewrite lookup_insert.
      case_decide; subst; rewrite ?Hv; [lia|done].
    + unfold unknown. rewrite lookup_insert_eq, Hv. lia.
  - right. split.
    + apply Nat.le_antisymm; apply sum_list_with_le; intros x _;
        unfold unknown; rewrite lookup_insert; case_decide; subst;
        rewrite ?Hv; done.
    + left. apply sum_list_with_lt with n; [|done|].
      * intros x _. unfold known. rewrite lookup_insert.
        case_decide; subst; rewrite ?Hv; lia.
      * unfold known. rewrite lookup_insert_eq, Hv. lia.
Qed.

Lemma legal_move_direction (current : cell) (d : Z * Z) :
  d ∈ directions → legal_move current (current.1 + d.1, current.2 + d.2).
Proof.
  intros Hd. unfold legal_move. simpl.
  by replace (current.1 + d.1 - current.1, current.2 + d.2 - current.2)
    with d by (destruct d; simpl; f_equal; lia).
Qed.

(** One direction of the for loop: nothing is raised, the invariant is
    kept and the measure does not grow. *)
Lemma relax_inv st current d :
  inv st → start ∈ closed_set st → current ∈ closed_set st → d ∈ directions →
  ∃ st', relax (n_rows g0) (n_cols g0) goal obstacle_value current st d = (None, st')
         ∧ inv st' ∧ closed_set st' = closed_set st ∧ settled st' st.
Proof.
  intros Hinv Hs Hc Hd. unfold relax.
  set (n := (current.1 + d.1, current.2 + d.2)).
  pose proof (legal_move_direction current d Hd) as Hm. fold n in Hm.
  destruct (in_bounds _ _ n) eqn:Hb; simpl.
  2:{ exists st. auto using settled_refl. }
  apply in_bounds_inside in Hb.
  pose proof (inv_log_read st current n Hinv Hb Hc Hm) as Hlog.
  assert (settled (log_read n st) st) as Hsl by (right; auto).
  change (grid (log_read n st)) with (grid st). rewrite (inv_grid _ Hinv).
  destruct (grid_get_inside g0 n Hrect Hb) as [label Hlabel]. rewrite Hlabel.
  destruct (decide (label = obstacle_value)); [by eauto|].
  destruct (decide (n ∈ closed_set st)) as [|Hnc]; [by eauto|].
  destruct (inv_closed _ Hinv current Hc) as ([g Hg] & _). rewrite Hg.
  destruct (negb _ || _) eqn:Hcond; [|by eauto].
  eexists. split; [done|]. split_and!; [|done|].
  - apply (inv_record (log_read n st)); try done.
    split; [done|]. eauto.
  - apply settled_trans with (log_read n st); [|done].
    by apply settled_record.
Qed.

Lemma expand_inv current ds st :
  inv st → start ∈ closed_set st → current ∈ closed_set st → ds ⊆ directions →
  ∃ st', expand (n_rows g0) (n_cols g0) goal obstacle_value current ds st = (None, st')
         ∧ inv st' ∧ closed_set st' = closed_set st ∧ settled st' st.
Proof.
  revert st. induction ds as [|d ds IH]; intros st Hinv Hs Hc Hds; simpl.
  { exists st. auto using settled_refl. }
  destruct (relax_inv st current d) as (st1 & Hr1 & Hinv1 & Hcl1 & Hset1);
    [done..|set_solver|].
  destruct (IH st1) as (st2 & Hr2 & Hinv2 & Hcl2 & Hset2);
    [done|congruence..|set_solver|].
  rewrite Hr1, Hr2. exists st2. split_and!; [done..|congruence|by eapply settled_trans].
Qed.

Lemma moves_snoc p a b :
  moves p → last p = Some a → legal_move a b → moves (p ++ [b]).
Proof.
  induction p as [|x [|y p] IH]; simpl; intros Hp Hl Hm; [done|..].
  - injection Hl as ->. done.
  - destruct Hp as [Hxy Hp]. split; [done|]. by apply IH.
Qed.

Lemma chain_moves cf c l :
  chain cf c l → (∀ n p, cf !! n = Some p → legal_move p n) → moves (reverse l).
Proof.
  induction 1 as [c Hc|c parent l Hc Hl IH]; intros Hcf; [done|].
  rewrite reverse_cons. apply moves_snoc with parent; [by apply IH| |by apply Hcf].
  rewrite last_reverse. by destruct (chain_head _ _ _ Hl) as [l' ->].
Qed.

Lemma chain_free cf c l :
  chain cf c l → (∀ n p, cf !! n = Some p → free g0 obstacle_value n) →
  last l = Some start → Forall (λ x, x = start ∨ free g0 obstacle_value x) l.
Proof.
  induction 1 as [c Hc|c parent l Hc Hl IH]; intros Hcf Hlast.
  - injection Hlast as ->. repeat constructor.
  - constructor; [right; by eapply Hcf|]. apply IH; [done|].
    destruct (chain_head _ _ _ Hl) as [l' ->]. done.
Qed.

(** The chain of a cell of the frontier ends at [start] and repeats no
    cell. *)
Lemma inv_chain_open st e :
  inv st → e ∈ open_set st →
  ∃ l, chain (came_from st) e.2 l ∧ NoDup l ∧ last l = Some start
       ∧ (length l ≤ S (size (closed_set st)))%nat.
Proof.
  intros Hinv He.
  assert (∀ c, c ∈ closed_set st →
    ∃ l, chain (came_from st) c l ∧ NoDup l ∧ last l = Some start
         ∧ (∀ x, x ∈ l → x ∈ closed_set st)
         ∧ (length l ≤ size (closed_set st))%nat) as Hclosed.
  { intros c Hc. destruct (inv_chain _ Hinv c Hc) as (l & Hl & Hin & Hnd).
    exists l. split_and!; try done.
    - destruct (chain_last _ _ _ Hl) as (z & Hz & Hnone). rewrite Hz. f_equal.
      destruct (inv_closed _ Hinv z) as (_ & _ & [Hs|[? Hs]]);
        [by eapply Hin, last_Some_elem_of|done|congruence].
    - change (size (closed_set st)) with (length (elements (closed_set st))).
      apply submseteq_length, NoDup_submseteq; [done|].
      intros x Hx. apply elem_of_elements. by apply Hin. }
  destruct (came_from st !! e.2) as [p|] eqn:Hcf.
  - destruct (inv_parent _ Hinv _ _ Hcf) as (Hp & _ & _).
    destruct (Hclosed p Hp) as (l & Hl & Hnd & Hlast & Hin & Hlen).
    destruct (decide (e.2 ∈ closed_set st)) as [Hc|Hc].
    { destruct (Hclosed _ Hc) as (l2 & ? & ? & ? & ? & ?).
      exists l2. split_and!; try done. lia. }
    exists (e.2 :: l). split_and!.
    + by apply chain_step with p.
    + constructor; [|done]. intros Hx. by apply Hc, Hin.
    + destruct (chain_head _ _ _ Hl) as [l' ->]. done.
    + simpl. lia.
  - exists [e.2]. split_and!.
    + by apply chain_end.
    + apply NoDup_singleton.
    + destruct (inv_open _ Hinv e He) as (_ & [->|[? ?]]); [done|congruence].
    + simpl. lia.
Qed.

(** Lines 54 and 67 on a cell that is not the goal. *)
Lemma inv_close st f current rest :
  inv st → open_set st = (f, current) :: rest → current ≠ goal →
  inv (close current (popped rest st)).
Proof.
  intros Hinv Hopen Hne.
  assert ((f, current) ∈ open_set st) as Hcur by (rewrite Hopen; left).
  destruct Hinv as [Hgrid Hop Hcl Hg Hst Hpar Hch Hrd].
  split; simpl; try done.
  - intros e He. apply Hop. rewrite Hopen. by right.
  - intros c Hc. apply elem_of_union in Hc as [Hc|Hc]; [|by apply Hcl].
    apply elem_of_singleton in Hc as ->.
    destruct (Hop _ Hcur) as [H1 H2]. done.
  - intros c v Hv. destruct (Hg c v Hv) as [H0 H1]. split; [done|].
    rewrite Hopen, fmap_cons in H1. simpl in H1. set_solver.
  - intros n p Hn. destruct (Hpar n p Hn) as (H1 & H2 & H3). set_solver.
  - intros c Hc.
    destruct (decide (c ∈ closed_set st)) as [Hold|Hnew].
    { destruct (Hch c Hold) as (l & Hl & Hin & Hnd). exists l. set_solver. }
    assert (c = current) as -> by set_solver.
    destruct (came_from st !! current) as [p|] eqn:Hcf.
    + destruct (Hpar _ _ Hcf) as (Hp & _ & _).
      destruct (Hch p Hp) as (l & Hl & Hin & Hnd).
      exists (current :: l). split_and!.
      * by apply chain_step with p.
      * intros x Hx. apply elem_of_cons in Hx as [->|Hx]; set_solver.
      * constructor; [|done]. intros Hx. by apply Hnew, Hin.
    + exists [current]. split_and!.
      * by apply chain_end.
      * intros x Hx. apply list_elem_of_singleton in Hx as ->. set_solver.
      * apply NoDup_singleton.
  - intros n Hn. destruct (Hrd n Hn) as (H1 & c & H2 & H3).
    split; [done|]. exists c. set_solver.
Qed.

Lemma post_goal st f rest :
  inv st → open_set st = (f, goal) :: rest →
  ∃ fuel path,
    walk_back fuel (came_from st) goal [] = Some path
    ∧ post (Some (reverse (path ++ [start]))) (popped rest st).
Proof.
  intros Hinv Hopen.
  destruct (inv_chain_open st (f, goal) Hinv) as (l & Hl & Hnd & Hlast & _).
  { rewrite Hopen. left. }
  simpl in Hl.
  destruct (walk_back_chain _ _ _ Hl (length l) []) as (l' & z & El & Hw); [lia|].
  exists (length l), l'. split; [done|].
  assert (l' ++ [start] = l) as ->.
  { rewrite El in Hlast. rewrite last_snoc in Hlast. congruence. }
  split_and!; simpl.
  - apply (inv_grid _ Hinv).
  - apply (inv_reads _ Hinv).
  - split_and!.
    + by rewrite head_reverse.
    + rewrite last_reverse. by destruct (chain_head _ _ _ Hl) as [? ->].
    + apply (chain_moves _ _ _ Hl). intros n p Hn.
      by destruct (inv_parent _ Hinv n p Hn) as (_ & ? & _).
    + by rewrite reverse_Permutation.
    + apply Forall_reverse. apply (chain_free _ _ _ Hl); [|done].
      intros n p Hn. by destruct (inv_parent _ Hinv n p Hn) as (_ & _ & ?).
Qed.

(** The search loop returns: each iteration that does not return takes
    the measure down. *)
Lemma search_total_aux (a : nat) :
  ∀ (b c : nat) st, mu1 st = a → mu2 st = b → mu3 st = c → loop_inv st →
  ∃ fuel r st',
    search (n_rows g0) (n_cols g0) start goal obstacle_value fuel st
      = Some (Returned r, st')
    ∧ post r st'.
Proof.
  induction a as [a IHa] using lt_wf_ind.
  induction b as [b IHb] using lt_wf_ind.
  induction c as [c IHc] using lt_wf_ind.
  intros st Ha Hb Hc [Hinv Hst].
  destruct (open_set st) as [|[f current] rest] eqn:Hopen.
  { exists 1%nat, None, st. split; [by apply search_empty|].
    split_and!; [apply (inv_grid _ Hinv)|apply (inv_reads _ Hinv)|done]. }
  destruct (decide (current = goal)) as [->|Hne].
  { destruct (post_goal st f rest Hinv Hopen) as (fuel & path & Hw & Hpost).
    exists (S fuel), (Some (reverse (path ++ [start]))), (popped rest st).
    rewrite (search_goal _ _ _ _ _ _ _ _ _ Hopen).
    change (came_from (popped rest st)) with (came_from st) in Hw.
    by rewrite Hw. }
  pose proof (inv_close st f current rest Hinv Hopen Hne) as Hinv1.
  set (st1 := close current (popped rest st)) in *.
  assert (current ∈ closed_set st1) as Hc1 by (simpl; set_solver).
  assert (start ∈ closed_set st1) as Hs1.
  { simpl. destruct Hst as [Hst|Hst]; [set_solver|].
    specialize (Hst (f, current)). simpl in Hst. rewrite Hst by left. set_solver. }
  destruct (expand_inv current directions st1 Hinv1 Hs1 Hc1)
    as (st2 & Hex & Hinv2 & Hcl2 & Hset); [done|].
  assert (loop_inv st2) as Hloop2 by (split; [done|left; by rewrite Hcl2]).
  assert (mu1 st1 = a ∧ mu2 st1 = b ∧ S (mu3 st1) = c) as (Ha1 & Hb1 & Hc1').
  { subst a b c. unfold mu1, mu2, mu3. rewrite Hopen. done. }
  assert (∃ fuel r st',
    search (n_rows g0) (n_cols g0) start goal obstacle_value fuel st2
      = Some (Returned r, st') ∧ post r st') as (fuel & r & st' & Hrun & Hpost).
  { destruct Hset as [Hlt|[E1 [Hlt|[E2 E3]]]].
    - apply (IHa (mu1 st2)) with (mu2 st2) (mu3 st2); [lia|done..].
    - apply (IHb (mu2 st2)) with (mu3 st2); [lia|congruence|done..].
    - apply (IHc (mu3 st2)); [lia|congruence..|done]. }
  exists (S fuel), r, st'. split; [|done].
  rewrite (search_next _ _ _ _ _ _ _ _ _ _ Hopen Hne).
  fold st1. by rewrite Hex.
Qed.

Lemma inv_initial : loop_inv (initial g0 start goal).
Proof.
  split; [|right; simpl; by intros e ->%list_elem_of_singleton].
  split; simpl; try done.
  - intros e ->%list_elem_of_singleton. simpl.
    rewrite lookup_singleton_eq. eauto.
  - intros c v [-> <-]%lookup_singleton_Some. split; [done|]. left. left.
  - by intros n ?%elem_of_nil.
Qed.

Lemma search_total :
  ∃ fuel r st',
    search (n_rows g0) (n_cols g0) start goal obstacle_value fuel
           (initial g0 start goal) = Some (Returned r, st')
    ∧ post r st'.
Proof. eapply search_total_aux; eauto using inv_initial. Qed.

(** The invariant holds in every state of [visits]. *)
Lemma visits_inv st :
  visits g0 start goal obstacle_value st →
  inv st ∧ (start ∈ closed_set st
            ∨ (closed_set st = ∅ ∧ ∀ e, e ∈ open_set st → e.2 = start)).
Proof.
  induction 1 as [|st f current rest _ [Hinv Hst] Hopen Hne
                  |st current d st' _ [Hinv Hst] Hc Hd Hrelax].
  - destruct inv_initial as [Hinv _]. split; [done|]. right. split; [done|].
    simpl. by intros e ->%list_elem_of_singleton.
  - split; [by eapply inv_close|]. left. simpl.
    destruct Hst as [Hst|[_ Hst]]; [set_solver|].
    specialize (Hst (f, current)). rewrite Hopen in Hst.
    simpl in Hst. rewrite Hst by left. set_solver.
  - assert (start ∈ closed_set st) as Hs.
    { destruct Hst as [Hst|[Hst _]]; [done|]. rewrite Hst in Hc. set_solver. }
    destruct (relax_inv st current d Hinv Hs Hc Hd) as (st1 & Hr & Hinv1 & Hcl1 & _).
    rewrite Hrelax in Hr. injection Hr as <-. split; [done|]. left. by rewrite Hcl1.
Qed.

(** Line 95 is reached only with a first g-score for the neighbor or
    with a lower one. *)
Lemma push_lowers_score st current d st' :
  visits g0 start goal obstacle_value st →
  current ∈ closed_set st → d ∈ directions →
  relax (n_rows g0) (n_cols g0) goal obstacle_value current st d = (None, st') →
  open_set st' ≠ open_set st →
  ∃ t, g_score st' !! (current.1 + d.1, current.2 + d.2) = Some t ∧ 0 <= t
       ∧ (g_score st !! (current.1 + d.1, current.2 + d.2) = None
          ∨ ∃ v, g_score st !! (current.1 + d.1, current.2 + d.2) = Some v ∧ t < v).
Proof.
  intros [Hinv _]%visits_inv Hc Hd. unfold relax.
  set (n := (current.1 + d.1, current.2 + d.2)).
  destruct (in_bounds _ _ n) eqn:Hb; simpl; [|by intros [= <-]].
  destruct (grid_get (grid st) n) as [label|]; [|done].
  destruct (decide (label = obstacle_value)); [by intros [= <-]|].
  destruct (decide (n ∈ closed_set st)) as [|Hnc]; [by intros [= <-]|].
  destruct (g_score st !! current) as [g|] eqn:Hg; [|done].
  destruct (negb _ || _) eqn:Hcond; [|by intros [= <-]].
  intros [= <-] _. simpl. exists (g + 1).
  rewrite lookup_insert_eq.
  apply in_bounds_inside in Hb.
  destruct (record_condition (log_read n st) current n g) as [H0 H1]; try done.
  apply inv_log_read with current; [done..|]. by apply legal_move_direction.
Qed.

End Invariant.

(** ** The call as a whole *)

Lemma pathfinder_mono fuel fuel' g start goal obstacle_value r :
  pathfinder fuel g start goal obstacle_value = Some r → (fuel ≤ fuel')%nat →
  pathfinder fuel' g start goal obstacle_value = Some r.
Proof.
  unfold pathfinder. destruct (getitem g 0); [|done].
  apply search_mono.
Qed.

Lemma ends_deterministic g start goal obstacle_value out out' st st' :
  ends g start goal obstacle_value out st →
  ends g start goal obstacle_value out' st' →
  out = out' ∧ st = st'.
Proof.
  intros [fuel H] [fuel' H'].
  apply (pathfinder_mono _ (fuel `max` fuel')%nat) in H; [|lia].
  apply (pathfinder_mono _ (fuel `max` fuel')%nat) in H'; [|lia].
  split; congruence.
Qed.

Lemma pathfinder_rectangular fuel g start goal obstacle_value :
  rectangular g →
  pathfinder fuel g start goal obstacle_value =
    search (n_rows g) (n_cols g) start goal obstacle_value fuel (initial g start goal).
Proof. destruct g as [|row0 g]; [done|]. intros _. reflexivity. Qed.

(** On a well-formed grid the call returns, and what it returns meets
    [post]. *)
Lemma pathfinder_total g start goal obstacle_value :
  rectangular g →
  ∃ r st, ends g start goal obstacle_value (Returned r) st
          ∧ post g start goal obstacle_value r st.
Proof.
  intros Hrect.
  destruct (search_total g start goal obstacle_value Hrect) as (fuel & r & st & H & Hpost).
  exists r, st. split; [|done]. exists fuel. by rewrite pathfinder_rectangular.
Qed.

Lemma pathfinder_post g start goal obstacle_value out st :
  rectangular g → ends g start goal obstacle_value out st →
  ∃ r, out = Returned r ∧ post g start goal obstacle_value r st.
Proof.
  intros Hrect Hends.
  destruct (pathfinder_total g start goal obstacle_value Hrect) as (r & st' & H & Hpost).
  destruct (ends_deterministic _ _ _ _ _ _ _ _ Hends H) as [-> ->]. eauto.
Qed.

Lemma free_not_blocked g obstacle_value c :
  free g obstacle_value c → blocked g obstacle_value c → False.
Proof. intros (_ & label & H1 & H2) [_ H3]. congruence. Qed.

Lemma returns_ends g start goal obstacle_value out :
  returns g start goal obstacle_value out ↔ ∃ st, ends g start goal obstacle_value out st.
Proof.
  split.
  - intros [fuel H]. destruct (pathfinder fuel g start goal obstacle_value) as [[o st]|] eqn:E;
      [|done].
    injection H as <-. exists st, fuel. done.
  - intros (st & fuel & H). exists fuel. by rewrite H.
Qed.

Lemma returns_deterministic g start goal obstacle_value out out' :
  returns g start goal obstacle_value out → returns g start goal obstacle_value out' →
  out = out'.
Proof.
  rewrite !returns_ends. intros [st H] [st' H'].
  by destruct (ends_deterministic _ _ _ _ _ _ _ _ H H').
Qed.

(** The first pop of a call whose goal is its start returns at line 64. *)
Lemma same_cell_returns g start obstacle_value :
  rectangular g → returns g start start obstacle_value (Returned (Some [start])).
Proof.
  intros Hrect. exists 1%nat. rewrite pathfinder_rectangular by done.
  unfold initial. cbn [heappush].
  erewrite search_goal by reflexivity. reflexivity.
Qed.

(** ** Returned paths *)

(** C1: on a well-formed grid with start and goal on cells that are not
    obstacles, a returned path starts with start and ends with goal, moves
    by one of the eight offsets at each step, stays on cells that are not
    obstacles, and visits no cell twice. *)
Theorem returned_path_is_route g start goal obstacle_value p :
  rectangular g → free g obstacle_value start → free g obstacle_value goal →
  returns g start goal obstacle_value (Returned (Some p)) →
  (head p = Some start ∧ last p = Some goal)
  ∧ moves p
  ∧ Forall (free g obstacle_value) p
  ∧ NoDup p.
Proof.
  intros Hrect Hstart _ [st Hends]%returns_ends.
  destruct (pathfinder_post _ _ _ _ _ _ Hrect Hends) as (r & [= <-] & _ & _ & Hroute).
  destruct Hroute as (Hhead & Hlast & Hmoves & Hnd & Hfree).
  split_and!; try done.
  eapply Forall_impl; [exact Hfree|]. by intros c [->|?].
Qed.

Lemma returned_path_is_route_witness :
  let p := [(0, 0); (1, 1); (0, 2)] in
  (head p = Some (0, 0) ∧ last p = Some (0, 2))
  ∧ moves p ∧ Forall (free [[0; 2; 0]; [0; 0; 0]] 2) p ∧ NoDup p.
Proof.
  apply (returned_path_is_route [[0; 2; 0]; [0; 0; 0]] (0, 0) (0, 2) 2).
  - repeat constructor.
  - split; [unfold inside, n_rows, n_cols; simpl; lia|]. eexists. split; [reflexivity|lia].
  - split; [unfold inside, n_rows, n_cols; simpl; lia|]. eexists. split; [reflexivity|lia].
  - exists 10%nat. vm_compute. reflexivity.
Defined.

(** C2: when no sequence of moves through cells that are not obstacles
    leads from start to goal, the call returns None: it raises nothing and
    returns no path. *)
Theorem unreachable_goal_returns_None g start goal obstacle_value :
  rectangular g → free g obstacle_value start → free g obstacle_value goal →
  (∀ p, ¬ connects g obstacle_value start goal p) →
  returns g start goal obstacle_value (Returned None).
Proof.
  intros Hrect Hstart Hgoal Hno.
  destruct (pathfinder_total g start goal obstacle_value Hrect) as (r & st & Hends & Hpost).
  destruct r as [p|]; [|apply returns_ends; eauto].
  destruct (returned_path_is_route g start goal obstacle_value p)
    as ([Hhead Hlast] & Hmoves & Hfree & _); [done..|apply returns_ends; eauto|].
  destruct (Hno p). done.
Qed.

(** C3: with goal equal to start the call returns the path [[start]]. *)
Theorem start_is_goal_returns_singleton g start obstacle_value :
  rectangular g → free g obstacle_value start →
  returns g start start obstacle_value (Returned (Some [start])).
Proof.
  intros Hrect _. exists 1%nat. rewrite pathfinder_rectangular by done.
  unfold initial. cbn [heappush].
  erewrite search_goal by reflexivity. reflexivity.
Qed.

Lemma start_is_goal_returns_singleton_witness :
  returns [[0; 1]; [2; 0]] (1, 1) (1, 1) 2 (Returned (Some [(1, 1)])).
Proof.
  apply start_is_goal_returns_singleton.
  - repeat constructor.
  - split; [unfold inside, n_rows, n_cols; simpl; lia|]. eexists. split; [reflexivity|lia].
Defined.

(** A row whose middle cell is an obstacle: nothing leads across it. *)
Lemma split_row_unconnected p : ¬ connects [[0; 2; 0]] 2 (0, 0) (0, 2) p.
Proof.
  intros (Hh & Hl & Hm & Hf).
  destruct p as [|a [|[b1 b2] p]]; simpl in *; [done|congruence|].
  injection Hh as ->. destruct Hm as [Hm _].
  apply Forall_cons in Hf as [_ Hf]. apply Forall_cons in Hf as [Hf _].
  destruct Hf as ([H1 H2] & label & Hlab & Hne).
  unfold n_rows, n_cols in *. simpl in *.
  unfold legal_move, directions in Hm. simpl in Hm.
  assert (b1 = 0) as -> by lia.
  assert (b2 = 1) as ->.
  { set_unfold in Hm. destruct_or!; simplify_eq; lia. }
  vm_compute in Hlab. congruence.
Qed.

Lemma unreachable_goal_returns_None_witness :
  returns [[0; 2; 0]] (0, 0) (0, 2) 2 (Returned None).
Proof.
  apply unreachable_goal_returns_None.
  - repeat constructor.
  - split; [unfold inside, n_rows, n_cols; simpl; lia|].
    eexists. split; [reflexivity|lia].
  - split; [unfold inside, n_rows, n_cols; simpl; lia|].
    eexists. split; [reflexivity|lia].
  - apply split_row_unconnected.
Defined.

(** ** Termination *)

(** C10: on a well-formed grid the call ends, for every start and goal.
    A cell is pushed onto the frontier only with its first g-score or with
    a lower one, and the scores are not negative: so each iteration that
    does not leave the loop takes down the measure [(mu1, mu2, mu3)], and
    the loop ends. *)
Theorem pathfinder_terminates g start goal obstacle_value :
  rectangular g →
  (∃ fuel r, ∀ fuel', (fuel ≤ fuel')%nat →
     fst <$> pathfinder fuel' g start goal obstacle_value = Some (Returned r))
  ∧ (∀ st current d st',
       visits g start goal obstacle_value st →
       current ∈ closed_set st → d ∈ directions →
       relax (n_rows g) (n_cols g) goal obstacle_value current st d = (None, st') →
       open_set st' ≠ open_set st →
       ∃ t, g_score st' !! (current.1 + d.1, current.2 + d.2) = Some t ∧ 0 <= t
            ∧ (g_score st !! (current.1 + d.1, current.2 + d.2) = None
               ∨ ∃ v, g_score st !! (current.1 + d.1, current.2 + d.2) = Some v
                      ∧ t < v)).
Proof.
  intros Hrect. split.
  - destruct (pathfinder_total g start goal obstacle_value Hrect)
      as (r & st & [fuel Hends] & _).
    exists fuel, r. intros fuel' Hle.
    by rewrite (pathfinder_mono _ _ _ _ _ _ _ Hends Hle).
  - intros st current d st'. by apply push_lowers_score.
Qed.

Lemma pathfinder_terminates_witness :
  let g := [[0; 0]] in
  let st := close (0, 0) (popped [] (initial g (0, 0) (0, 1))) in
  let st' := (relax (n_rows g) (n_cols g) (0, 1) 2 (0, 0) st (0, 1)).2 in
  (∃ fuel r, ∀ fuel', (fuel ≤ fuel')%nat →
     fst <$> pathfinder fuel' g (0, 0) (0, 1) 2 = Some (Returned r))
  ∧ (∃ t, g_score st' !! (0, 1) = Some t ∧ 0 <= t
          ∧ (g_score st !! (0, 1) = None
             ∨ ∃ v, g_score st !! (0, 1) = Some v ∧ t < v)).
Proof.
  intros g st st'.
  destruct (pathfinder_terminates g (0, 0) (0, 1) 2) as [Hends Hpush].
  { repeat constructor. }
  split; [exact Hends|].
  apply (Hpush st (0, 0) (0, 1) st').
  - apply (visits_close _ _ _ _ _ 1 (0, 0) []);
      [apply visits_initial|reflexivity|discriminate].
  - apply elem_of_union_l, elem_of_singleton. reflexivity.
  - apply list_elem_of_here.
  - vm_compute. reflexivity.
  - vm_compute. discriminate.
Defined.

(** ** The grid is only read *)

Lemma relax_grid rows cols goal obstacle_value current st d :
  grid (relax rows cols goal obstacle_value current st d).2 = grid st.
Proof.
  unfold relax. repeat (case_match; simpl; try done).
Qed.

Lemma expand_grid rows cols goal obstacle_value current ds st :
  grid (expand rows cols goal obstacle_value current ds st).2 = grid st.
Proof.
  revert st. induction ds as [|d ds IH]; intros st; simpl; [done|].
  pose proof (relax_grid rows cols goal obstacle_value current st d) as H.
  destruct (relax _ _ _ _ _ _ _) as [[e|] st1]; simpl in *; [done|].
  by rewrite IH.
Qed.

Lemma search_grid rows cols start goal obstacle_value fuel st out st' :
  search rows cols start goal obstacle_value fuel st = Some (out, st') →
  grid st' = grid st.
Proof.
  revert st. induction fuel as [|fuel IH]; intros st H; [done|].
  destruct (open_set st) as [|[f current] rest] eqn:Hopen.
  { rewrite search_empty in H by done. congruence. }
  destruct (decide (current = goal)) as [->|Hne].
  - rewrite (search_goal _ _ _ _ _ _ _ _ _ Hopen) in H.
    destruct (walk_back _ _ _ _); [|done]. by injection H as _ <-.
  - rewrite (search_next _ _ _ _ _ _ _ _ _ _ Hopen Hne) in H.
    pose proof (expand_grid rows cols goal obstacle_value current directions
                  (close current (popped rest st))) as Hg.
    destruct (expand _ _ _ _ _ _ _) as [[e|] st1]; simpl in Hg.
    + by injection H as _ <-.
    + apply IH in H. congruence.
Qed.

(** C8: when the call ends, the grid holds what it held when the call
    began: every label is as before. *)
Theorem grid_is_not_mutated g start goal obstacle_value out st :
  ends g start goal obstacle_value out st →
  grid st = g ∧ ∀ c, grid_get (grid st) c = grid_get g c.
Proof.
  intros [fuel H]. assert (grid st = g) as ->; [|done].
  unfold pathfinder in H. destruct (getitem g 0).
  - by apply search_grid in H.
  - by injection H as _ <-.
Qed.

Lemma grid_is_not_mutated_witness :
  ∃ st, grid st = [[0; 2; 0]; [0; 0; 0]]
        ∧ ∀ c, grid_get (grid st) c = grid_get [[0; 2; 0]; [0; 0; 0]] c.
Proof.
  destruct (pathfinder 10 [[0; 2; 0]; [0; 0; 0]] (0, 0) (0, 2) 2) as [[out st]|] eqn:E.
  - exists st. apply (grid_is_not_mutated _ (0, 0) (0, 2) 2 out). by exists 10%nat.
  - vm_compute in E. discriminate E.
Defined.

(** ** What the bounds check guards *)

(** C9, as amended: on a well-formed grid, for any integer start and
    goal, every read of the grid is at a cell that passed the bounds check
    of line 74, the subscript is in range, and the cell is a neighbor of
    an expanded cell; a start or goal outside the grid is never read. *)
Theorem reads_are_checked_neighbors g start goal obstacle_value out st :
  rectangular g → ends g start goal obstacle_value out st →
  Forall (λ n, inside g n ∧ is_Some (grid_get g n)
               ∧ ∃ c, c ∈ closed_set st ∧ legal_move c n) (reads st)
  ∧ (¬ inside g start → start ∉ reads st)
  ∧ (¬ inside g goal → goal ∉ reads st).
Proof.
  intros Hrect Hends.
  destruct (pathfinder_post _ _ _ _ _ _ Hrect Hends) as (r & _ & _ & Hreads & _).
  split_and!.
  - apply Forall_forall. intros n Hn. destruct (Hreads n Hn) as [Hin Hc].
    split_and!; [done|by apply grid_get_inside|done].
  - intros Hout Hin. by destruct (Hreads _ Hin).
  - intros Hout Hin. by destruct (Hreads _ Hin).
Qed.

Lemma reads_are_checked_neighbors_witness :
  ∃ st, Forall (λ n, inside [[0; 0; 0]] n ∧ is_Some (grid_get [[0; 0; 0]] n)
                     ∧ ∃ c, c ∈ closed_set st ∧ legal_move c n) (reads st)
        ∧ (¬ inside [[0; 0; 0]] (0, -1) → (0, -1) ∉ reads st)
        ∧ (¬ inside [[0; 0; 0]] (0, 3) → (0, 3) ∉ reads st).
Proof.
  destruct (pathfinder 10 [[0; 0; 0]] (0, -1) (0, 3) 2) as [[out st]|] eqn:E.
  - exists st. apply (reads_are_checked_neighbors _ (0, -1) (0, 3) 2 out).
    + repeat constructor.
    + by exists 10%nat.
  - vm_compute in E. discriminate E.
Defined.

(** C9, as stated, fails: the cells of start and goal are read when they
    come up as neighbors of an expanded cell. *)
Lemma endpoints_are_read :
  ∃ st, ends [[0; 0; 0]] (0, 0) (0, 2) 2 (Returned (Some [(0, 0); (0, 1); (0, 2)])) st
        ∧ reads st = [(0, 1); (0, 2); (0, 0)].
Proof.
  eexists. split.
  - exists 10%nat. vm_compute. reflexivity.
  - reflexivity.
Qed.

(** ** Endpoints on obstacles, malformed inputs *)

(** C4, as stated, fails: a start on an obstacle is searched from like
    any other cell, and a path is returned. *)
Lemma blocked_start_is_searched :
  blocked [[2; 0]] 2 (0, 0)
  ∧ ∃ st, ends [[2; 0]] (0, 0) (0, 1) 2 (Returned (Some [(0, 0); (0, 1)])) st
          ∧ reads st = [(0, 1)].
Proof.
  split.
  - split; [unfold inside, n_rows, n_cols; simpl; lia|reflexivity].
  - eexists. split; [exists 10%nat; vm_compute|]; reflexivity.
Qed.

(** C4, as amended: on a well-formed grid with start and goal inside it,
    an obstacle under start or goal raises nothing.  The search runs and
    the call returns [[start]] when goal is start, None when goal is an
    obstacle other than start, and otherwise None or a sequence of moves
    from start to goal whose cells after start are not obstacles. *)
Theorem blocked_endpoint_returns g start goal obstacle_value :
  rectangular g → inside g start → inside g goal →
  blocked g obstacle_value start ∨ blocked g obstacle_value goal →
  ∃ r, returns g start goal obstacle_value (Returned r)
       ∧ (start = goal → r = Some [start])
       ∧ (start ≠ goal → blocked g obstacle_value goal → r = None)
       ∧ (∀ p, r = Some p → route g start goal obstacle_value p).
Proof.
  intros Hrect _ _ _.
  destruct (pathfinder_total g start goal obstacle_value Hrect) as (r & st & Hends & Hpost).
  assert (returns g start goal obstacle_value (Returned r)) as Hret
    by (apply returns_ends; eauto).
  exists r. split_and!; [done|..].
  - intros <-. pose proof (same_cell_returns g start obstacle_value Hrect) as Hsame.
    pose proof (returns_deterministic _ _ _ _ _ _ Hret Hsame). congruence.
  - intros Hne Hblocked. destruct r as [p|]; [|done].
    destruct Hpost as (_ & _ & _ & Hlast & _ & _ & Hfree).
    rewrite Forall_forall in Hfree.
    destruct (Hfree goal) as [->|Hgoal]; [by eapply last_Some_elem_of|done|].
    destruct (free_not_blocked _ _ _ Hgoal Hblocked).
  - intros p ->. by destruct Hpost as (_ & _ & ?).
Qed.

Lemma blocked_endpoint_returns_witness :
  ∃ r, returns [[0; 0]; [0; 2]] (0, 0) (1, 1) 2 (Returned r)
       ∧ ((0, 0) = (1, 1) → r = Some [(0, 0)])
       ∧ ((0, 0) ≠ (1, 1) → blocked [[0; 0]; [0; 2]] 2 (1, 1) → r = None)
       ∧ (∀ p, r = Some p → route [[0; 0]; [0; 2]] (0, 0) (1, 1) 2 p).
Proof.
  apply blocked_endpoint_returns.
  - repeat constructor.
  - unfold inside, n_rows, n_cols; simpl; lia.
  - unfold inside, n_rows, n_cols; simpl; lia.
  - right. split; [unfold inside, n_rows, n_cols; simpl; lia|reflexivity].
Defined.

(** C5, as stated, fails: a start outside the grid is not reported, the
    call returns None. *)
Lemma out_of_bounds_start_is_searched :
  ¬ inside [[0]] (5, 5) ∧ returns [[0]] (5, 5) (0, 0) 2 (Returned None).
Proof.
  split.
  - unfold inside, n_rows, n_cols. simpl. lia.
  - exists 10%nat. vm_compute. reflexivity.
Qed.

(** C5, as amended: an empty grid ends the call before the loop, with the
    IndexError of line 31 and no read.  On a well-formed grid a start or
    goal outside it is not reported: the search runs, raises nothing,
    reads only inside the grid and returns [[start]] when goal is start
    and None when goal is outside the grid and is not start.  Rows of
    different lengths are not looked for before the loop: on
    [[[0, 0], [0]]] the IndexError comes from the third read of the
    search. *)
Theorem malformed_inputs g start goal obstacle_value :
  (∀ fuel, ∃ st, pathfinder fuel [] start goal obstacle_value = Some (Raised IndexError, st)
                 ∧ reads st = [] ∧ closed_set st = ∅)
  ∧ (rectangular g → ¬ inside g start ∨ ¬ inside g goal →
     ∃ r st, ends g start goal obstacle_value (Returned r) st
             ∧ Forall (inside g) (reads st)
             ∧ (start = goal → r = Some [start])
             ∧ (start ≠ goal → ¬ inside g goal → r = None))
  ∧ (∃ st, ends [[0; 0]; [0]] (0, 0) (5, 5) 2 (Raised IndexError) st
           ∧ reads st = [(0, 1); (1, 0); (1, 1)]).
Proof.
  split_and!.
  - intros fuel. eexists. split; [reflexivity|done].
  - intros Hrect _.
    destruct (pathfinder_total g start goal obstacle_value Hrect) as (r & st & Hends & Hpost).
    assert (returns g start goal obstacle_value (Returned r)) as Hret
      by (apply returns_ends; eauto).
    exists r, st. split_and!; [done|..].
    + apply Forall_forall. intros n Hn.
      destruct Hpost as (_ & Hreads & _). by destruct (Hreads n Hn).
    + intros <-. pose proof (same_cell_returns g start obstacle_value Hrect) as Hsame.
      pose proof (returns_deterministic _ _ _ _ _ _ Hret Hsame). congruence.
    + intros Hne Hout. destruct r as [p|]; [|done].
      destruct Hpost as (_ & _ & _ & Hlast & _ & _ & Hfree).
      rewrite Forall_forall in Hfree.
      destruct (Hfree goal) as [->|[Hgoal _]]; [by eapply last_Some_elem_of|done..].
  - eexists. split; [exists 10%nat; vm_compute|]; reflexivity.
Qed.

Lemma malformed_inputs_witness :
  ∃ r st, ends [[0; 0]] (0, -1) (3, 3) 2 (Returned r) st
          ∧ Forall (inside [[0; 0]]) (reads st)
          ∧ ((0, -1) = (3, 3) → r = Some [(0, -1)])
          ∧ ((0, -1) ≠ (3, 3) → ¬ inside [[0; 0]] (3, 3) → r = None).
Proof.
  apply (malformed_inputs [[0; 0]] (0, -1) (3, 3) 2).
  - repeat constructor.
  - left. unfold inside, n_rows, n_cols. simpl. lia.
Defined.

(** ** The wall scenario *)

Lemma wall_returns : returns wall_grid (0, 0) (0, 4) 2 (Returned (Some wall_path)).
Proof. exists 40%nat. vm_compute. reflexivity. Qed.

(** C7, as stated, fails: the path returned around the wall does not have
    7 cells. *)
Lemma wall_path_is_not_six_edges :
  ¬ ∃ p, returns wall_grid (0, 0) (0, 4) 2 (Returned (Some p))
         ∧ (4, 2) ∈ p ∧ length p = 7%nat.
Proof.
  intros (p & Hp & _ & Hlen).
  pose proof (returns_deterministic _ _ _ _ _ _ Hp wall_returns) as [= ->].
  discriminate Hlen.
Qed.

(** C7, as amended: around the wall the call returns a path through
    (4, 2) that has 8 edges (9 cells). *)
Theorem wall_path_has_eight_edges :
  ∃ p, returns wall_grid (0, 0) (0, 4) 2 (Returned (Some p))
       ∧ (4, 2) ∈ p ∧ length p = 9%nat.
Proof.
  exists wall_path. split_and!; [apply wall_returns| |reflexivity].
  unfold wall_path. set_solver.
Qed.

(** ** Grids without obstacles *)

Lemma obstacle_free_get g obstacle_value c :
  obstacle_free g obstacle_value → grid_get g c ≠ Some obstacle_value.
Proof.
  unfold obstacle_free, grid_get. intros Hfree Hget.
  destruct (getitem g c.1) as [row|] eqn:Hrow; [|done].
  apply getitem_elem_of in Hrow, Hget.
  rewrite Forall_forall in Hfree. specialize (Hfree row Hrow).
  rewrite Forall_forall in Hfree. by apply (Hfree _ Hget).
Qed.

Lemma cell_neq (a b : cell) : a ≠ b → a.1 ≠ b.1 ∨ a.2 ≠ b.2.
Proof.
  destruct a as [a1 a2], b as [b1 b2]. simpl. intros H.
  destruct (decide (a1 = b1)); [right; congruence|by left].
Qed.

Lemma direction_cases (d : Z * Z) :
  d ∈ directions ↔ (-1 <= d.1 <= 1 ∧ -1 <= d.2 <= 1 ∧ (d.1 ≠ 0 ∨ d.2 ≠ 0)).
Proof.
  destruct d as [d1 d2]. unfold directions. simpl. split.
  - intros H. set_unfold in H. destruct_or!; simplify_eq; lia.
  - intros (H1 & H2 & H3).
    assert (d1 = -1 ∨ d1 = 0 ∨ d1 = 1) as Hd1 by lia.
    assert (d2 = -1 ∨ d2 = 0 ∨ d2 = 1) as Hd2 by lia.
    destruct_or!; subst; set_solver by lia.
Qed.

Lemma heading_direction goal c : c ≠ goal → heading goal c ∈ directions.
Proof.
  intros H%cell_neq. apply direction_cases. unfold heading. simpl. lia.
Qed.

Lemma manhattan_toward goal c :
  c ≠ goal → manhattan_distance (toward goal c) goal <= manhattan_distance c goal - 1.
Proof.
  intros H%cell_neq. unfold manhattan_distance, toward, heading. simpl. lia.
Qed.

(** Every other neighbor is farther from the goal, by the heuristic, than
    the one [toward] it. *)
Lemma manhattan_other goal c (d : Z * Z) :
  d ∈ directions → d ≠ heading goal c →
  manhattan_distance (toward goal c) goal
    < manhattan_distance (c.1 + d.1, c.2 + d.2) goal.
Proof.
  intros Hd%direction_cases Hne%cell_neq.
  unfold manhattan_distance, toward, heading in *. simpl in *. lia.
Qed.

Lemma chebyshev_toward goal c :
  c ≠ goal →
  chebyshev_distance (toward goal c) goal = chebyshev_distance c goal - 1.
Proof.
  intros H%cell_neq. unfold chebyshev_distance, toward, heading. simpl. lia.
Qed.

Lemma chebyshev_neighbor a c (d : Z * Z) :
  d ∈ directions →
  chebyshev_distance a (c.1 + d.1, c.2 + d.2) <= chebyshev_distance a c + 1.
Proof.
  intros Hd%direction_cases. unfold chebyshev_distance. simpl. lia.
Qed.

Lemma chebyshev_triangle a b c :
  chebyshev_distance a c <= chebyshev_distance a b + chebyshev_distance b c.
Proof. unfold chebyshev_distance. lia. Qed.

Lemma chebyshev_zero a b : chebyshev_distance a b = 0 → a = b.
Proof.
  destruct a, b. unfold chebyshev_distance. simpl. intros H. f_equal; lia.
Qed.

Lemma chebyshev_nonneg a b : 0 <= chebyshev_distance a b.
Proof. unfold chebyshev_distance. lia. Qed.

Lemma inside_toward g goal c : inside g c → inside g goal → inside g (toward goal c).
Proof. unfold inside, toward, heading. simpl. lia. Qed.

Section OpenGrid.
Variables (g0 : list (list Z)) (start goal : cell) (obstacle_value : Z).
Hypothesis Hrect : rectangular g0.
Hypothesis Hfree : obstacle_free g0 obstacle_value.
Hypothesis Hgoal : inside g0 goal.

Local Abbreviation on_track := (on_track g0 start goal).

Section Expanding.
Variables (k : Z) (x : cell).
Hypothesis Hinside : inside g0 x.
Hypothesis Hx : x ≠ goal.
Hypothesis Hfrom : chebyshev_distance start x = k.
Hypothesis Hto : chebyshev_distance start goal = k + chebyshev_distance x goal.

Local Abbreviation best := (best goal k x).
Local Abbreviation mid := (mid g0 start k x).
Local Abbreviation mid_grid := (mid_grid g0 start k x).
Local Abbreviation mid_g := (mid_g g0 start k x).
Local Abbreviation mid_closed := (mid_closed g0 start k x).
Local Abbreviation pending := (pending goal k x).
Local Abbreviation pushed := (pushed goal k x).
Local Abbreviation frontier := (frontier goal k x).

Lemma toward_from : chebyshev_distance start (toward goal x) = k + 1.
Proof.
  pose proof (chebyshev_toward goal x Hx).
  pose proof (chebyshev_triangle start (toward goal x) goal).
  pose proof (chebyshev_neighbor start x (heading goal x)
                (heading_direction goal x Hx)) as Hn.
  fold (toward goal x) in Hn. lia.
Qed.

Lemma mid_log_read st n : mid st → mid (log_read n st).
Proof. by intros []. Qed.

Lemma mid_record st d f :
  mid st → d ∈ directions → (x.1 + d.1, x.2 + d.2) ∉ closed_set st →
  mid (record x (x.1 + d.1, x.2 + d.2) (k + 1) f st).
Proof.
  intros [Hgr Hg Hxc Hcl Hnear (l & Hl & Hlen & Hin)] Hd Hn.
  split; simpl; try done.
  - rewrite lookup_insert_ne; [done|]. intros E. apply Hn. by rewrite E.
  - intros e [->|He]%elem_of_heappush; [|by apply Hnear].
    simpl. pose proof (chebyshev_neighbor start x d Hd). lia.
  - exists l. split_and!; [|done..].
    apply chain_insert_ne; [done|]. intros Hnl. by apply Hn, Hin.
Qed.

Lemma neighbor_not_toward (d : Z * Z) :
  d ≠ heading goal x → (x.1 + d.1, x.2 + d.2) ≠ toward goal x.
Proof.
  intros Hne [= H1 H2]. apply Hne. destruct d as [d1 d2].
  unfold heading in *. simpl in *. f_equal; lia.
Qed.

(** A direction other than the one toward the goal leaves the frontier
    as it is or pushes a key above [best]. *)
Lemma relax_other st b d :
  mid st → frontier b st → d ∈ directions → d ≠ heading goal x →
  ∃ st', relax (n_rows g0) (n_cols g0) goal obstacle_value x st d = (None, st')
         ∧ mid st' ∧ frontier b st'.
Proof.
  intros Hmid Hfr Hd Hne. unfold relax.
  set (n := (x.1 + d.1, x.2 + d.2)).
  destruct (in_bounds _ _ n) eqn:Hb; simpl; [|by eauto].
  apply in_bounds_inside in Hb. rewrite (mid_grid _ Hmid).
  destruct (grid_get_inside g0 n Hrect Hb) as [label Hlabel]. rewrite Hlabel.
  rewrite decide_False
    by (intros ->; by apply (obstacle_free_get _ _ _ Hfree) in Hlabel).
  destruct (decide (n ∈ closed_set st)) as [|Hnc];
    [by eauto using mid_log_read|].
  rewrite (mid_g _ Hmid).
  destruct (negb _ || _); [|by eauto using mid_log_read].
  eexists. split; [done|]. split.
  { apply (mid_record (log_read n st)); auto using mid_log_read. }
  pose proof (manhattan_other goal x d Hd Hne) as Hlt. fold n in Hlt.
  pose proof (neighbor_not_toward d Hne) as Hnt. fold n in Hnt.
  destruct b; unfold frontier, pushed, pending in *; simpl in *.
  - destruct Hfr as (rest & Hopen & Hrest & Hg & Hcf).
    exists (heappush rest (k + 1 + manhattan_distance n goal, n)).
    rewrite Hopen. split_and!.
    + apply heappush_above. unfold best. simpl. lia.
    + apply Forall_forall. intros e [->|He]%elem_of_heappush.
      * unfold best. simpl. lia.
      * rewrite Forall_forall in Hrest. by apply Hrest.
    + by rewrite lookup_insert_ne.
    + by rewrite lookup_insert_ne.
  - apply Forall_forall. intros e [->|He]%elem_of_heappush.
    + unfold best. simpl. split; [lia|done].
    + rewrite Forall_forall in Hfr. by apply Hfr.
Qed.

(** The direction toward the goal pushes a key below every other. *)
Lemma relax_heading st :
  mid st → pending st →
  ∃ st', relax (n_rows g0) (n_cols g0) goal obstacle_value x st (heading goal x)
           = (None, st')
         ∧ mid st' ∧ pushed st'.
Proof.
  intros Hmid Hpend. unfold relax.
  change (x.1 + (heading goal x).1, x.2 + (heading goal x).2) with (toward goal x).
  set (n := toward goal x).
  pose proof (inside_toward g0 goal x Hinside Hgoal) as Hb. fold n in Hb.
  pose proof Hb as Hb'. apply in_bounds_inside in Hb'. rewrite Hb'. simpl.
  rewrite (mid_grid _ Hmid).
  destruct (grid_get_inside g0 n Hrect Hb) as [label Hlabel]. rewrite Hlabel.
  rewrite decide_False
    by (intros ->; by apply (obstacle_free_get _ _ _ Hfree) in Hlabel).
  assert (n ∉ closed_set st) as Hnc.
  { intros Hc%(mid_closed _ Hmid). pose proof toward_from. unfold n in Hc. lia. }
  rewrite decide_False by done. rewrite (mid_g _ Hmid).
  assert (in_open n (open_set st) = false) as ->.
  { apply bool_decide_eq_false. intros ([f c] & E & He)%list_elem_of_fmap.
    unfold pending in Hpend. rewrite Forall_forall in Hpend.
    destruct (Hpend _ He) as [_ Hneq]. by apply Hneq. }
  simpl. eexists. split; [done|]. split.
  { apply (mid_record (log_read n st)); auto using mid_log_read.
    by apply heading_direction. }
  exists (open_set st). unfold pending in Hpend. simpl. split_and!.
  - apply heappush_least. eapply Forall_impl; [exact Hpend|].
    by intros e [? _].
  - eapply Forall_impl; [exact Hpend|]. by intros e [? _].
  - by rewrite lookup_insert_eq.
  - by rewrite lookup_insert_eq.
Qed.

Lemma expand_mid ds :
  ∀ b st, NoDup ds → ds ⊆ directions → mid st → frontier b st →
    (if b then heading goal x ∉ ds else heading goal x ∈ ds) →
    ∃ st', expand (n_rows g0) (n_cols g0) goal obstacle_value x ds st = (None, st')
           ∧ mid st' ∧ pushed st'.
Proof.
  induction ds as [|d ds IH]; intros b st Hnd Hds Hmid Hfr Hb; simpl.
  { destruct b; [by eauto|]. by apply elem_of_nil in Hb. }
  apply NoDup_cons in Hnd as [Hd Hnd].
  destruct (decide (d = heading goal x)) as [->|Hne].
  - destruct b; [set_solver|].
    destruct (relax_heading st Hmid Hfr) as (st1 & Hr & Hmid1 & Hfr1).
    rewrite Hr. apply (IH true); [done|set_solver|done..].
  - destruct (relax_other st b d Hmid Hfr) as (st1 & Hr & Hmid1 & Hfr1);
      [set_solver|done|].
    rewrite Hr. apply (IH b); [done|set_solver|done..|].
    destruct b; set_solver.
Qed.

End Expanding.

Lemma NoDup_directions : NoDup directions.
Proof. unfold directions. repeat (apply NoDup_cons; split; [set_solver|]). apply NoDup_nil_2. Qed.

(** One iteration from a state on track leaves a state on track, one
    move further. *)
Lemma on_track_next k x st f rest :
  on_track k x st → x ≠ goal → open_set st = (f, x) :: rest →
  ∃ st', expand (n_rows g0) (n_cols g0) goal obstacle_value x directions
                (close x (popped rest st)) = (None, st')
         ∧ on_track (k + 1) (toward goal x) st'.
Proof.
  intros [Hgr (rest' & Hopen & Hrest) Hg Hin Hfrom Hto Hcl Hnear
          (l & Hl & Hlen & Hlin)] Hx Hopen'.
  rewrite Hopen in Hopen'. injection Hopen' as <- <-.
  pose proof (toward_from k x Hx Hfrom Hto) as Htf.
  pose proof (manhattan_toward goal x Hx) as Hman.
  assert (mid g0 start k x (close x (popped rest' st))) as Hmid.
  { split; simpl; try done.
    - set_solver.
    - intros c [->%elem_of_singleton|Hc%Hcl]%elem_of_union; lia.
    - intros e He. assert (e ∈ open_set st) as He' by (rewrite Hopen; by right).
      apply Hnear in He'. lia.
    - exists l. split_and!; [done..|]. intros y Hy. destruct (Hlin y Hy); set_solver. }
  assert (pending goal k x (close x (popped rest' st))) as Hpend.
  { unfold pending. simpl. apply Forall_forall. intros e He.
    rewrite Forall_forall in Hrest. specialize (Hrest e He). simpl in Hrest.
    split; [unfold best; lia|].
    assert (e ∈ open_set st) as He' by (rewrite Hopen; by right).
    apply Hnear in He'. intros E. rewrite E in He'. lia. }
  destruct (expand_mid k x Hin Hx Hfrom Hto directions false _
              NoDup_directions (reflexivity _) Hmid Hpend) as (st' & Hex & Hmid' & Hpushed).
  { by apply heading_direction. }
  exists st'. split; [done|].
  destruct Hmid' as [Hgr' Hg' Hxc' Hcl' Hnear' (l' & Hl' & Hlen' & Hlin')].
  destruct Hpushed as (rest2 & Hopen2 & Hrest2 & Hg2 & Hcf2).
  split; try done.
  - exists rest2. by fold (best goal k x).
  - by apply inside_toward.
  - rewrite (chebyshev_toward goal x Hx). lia.
  - intros c Hc%Hcl'. lia.
  - exists (toward goal x :: l'). split_and!.
    + by apply chain_step with x.
    + simpl length. lia.
    + intros y [->|Hy]%elem_of_cons; auto.
Qed.

(** From a state on track the loop returns a path with one cell per
    move made and left to make, plus one. *)
Lemma on_track_returns (m : nat) :
  ∀ k x st, on_track k x st → chebyshev_distance x goal = Z.of_nat m →
  ∃ fuel p st',
    search (n_rows g0) (n_cols g0) start goal obstacle_value fuel st
      = Some (Returned (Some p), st')
    ∧ Z.of_nat (length p) = k + Z.of_nat m + 1.
Proof.
  induction m as [|m IH]; intros k x st Htrack Hdist.
  - apply chebyshev_zero in Hdist as ->.
    destruct Htrack as [_ (rest & Hopen & _) _ _ _ _ _ _ (l & Hl & Hlen & _)].
    destruct (walk_back_chain _ _ _ Hl (length l) []) as (l' & z & El & Hw); [lia|].
    exists (S (length l)), (reverse (l' ++ [start])), (popped rest st).
    rewrite (search_goal _ _ _ _ _ _ _ _ _ Hopen), Hw. split; [done|].
    rewrite length_reverse. rewrite El in Hlen.
    rewrite !length_app in *. simpl in *. lia.
  - assert (x ≠ goal) as Hx.
    { intros ->. unfold chebyshev_distance in Hdist. lia. }
    pose proof Htrack as [_ (rest & Hopen & _) _ _ _ _ _ _ _].
    destruct (on_track_next k x st _ rest Htrack Hx Hopen) as (st1 & Hex & Htrack1).
    destruct (IH (k + 1) (toward goal x) st1 Htrack1) as (fuel & p & st' & Hrun & Hlen).
    { rewrite (chebyshev_toward goal x Hx). lia. }
    exists (S fuel), p, st'. split; [|lia].
    by rewrite (search_next _ _ _ _ _ _ _ _ _ _ Hopen Hx), Hex.
Qed.

Lemma on_track_initial : inside g0 start → on_track 0 start (initial g0 start goal).
Proof.
  intros Hstart. split; simpl; try done.
  - by exists [].
  - apply lookup_singleton_eq.
  - unfold chebyshev_distance. lia.
  - intros e ->%list_elem_of_singleton. unfold chebyshev_distance. simpl. lia.
  - exists [start]. split_and!; [by apply chain_end|done|].
    intros y ->%list_elem_of_singleton. by left.
Qed.

End OpenGrid.

(** C6: on a well-formed grid without obstacles, for start and goal two
    different cells of the grid, the call returns a path whose number of
    edges is the Chebyshev distance from start to goal. *)
Theorem open_grid_path_is_chebyshev g start goal obstacle_value :
  rectangular g → obstacle_free g obstacle_value →
  inside g start → inside g goal → start ≠ goal →
  ∃ p, returns g start goal obstacle_value (Returned (Some p))
       ∧ Z.of_nat (length p) - 1 = chebyshev_distance start goal.
Proof.
  intros Hrect Hfree Hstart Hgoal _.
  pose proof (chebyshev_nonneg start goal) as Hnn.
  destruct (on_track_returns g start goal obstacle_value Hrect Hfree Hgoal
              (Z.to_nat (chebyshev_distance start goal)) 0 start
              (initial g start goal)) as (fuel & p & st & Hrun & Hlen).
  - by apply on_track_initial.
  - lia.
  - exists p. split; [|lia]. exists fuel.
    by rewrite pathfinder_rectangular, Hrun.
Qed.

Lemma open_grid_path_is_chebyshev_witness :
  ∃ p, returns [[0; 1; 0; 1]; [1; 0; 0; 0]; [0; 0; 1; 0]] (2, 0) (0, 3) 2 (Returned (Some p))
       ∧ Z.of_nat (length p) - 1 = chebyshev_distance (2, 0) (0, 3).
Proof.
  apply open_grid_path_is_chebyshev.
  - repeat constructor.
  - unfold obstacle_free. repeat (apply Forall_cons; split); try apply Forall_nil; lia.
  - unfold inside, n_rows, n_cols; simpl; lia.
  - unfold inside, n_rows, n_cols; simpl; lia.
  - intros H. discriminate H.
Defined.

(** ** A goal that can be reached is reached *)

Section Completeness.
Variables (g0 : list (list Z)) (start goal : cell) (obstacle_value : Z).
Hypothesis Hrect : rectangular g0.

Local Abbreviation inv := (inv g0 start goal obstacle_value).
Local Abbreviation covered := (covered g0 obstacle_value).

(** One direction of the for loop deals with the neighbor in that
    direction and keeps the rest. *)
Lemma relax_covered st current d ds st' :
  inv st → covered (d :: ds) current st →
  relax (n_rows g0) (n_cols g0) goal obstacle_value current st d = (None, st') →
  covered ds current st'.
Proof.
  intros Hinv Hcov Hrelax.
  set (n0 := (current.1 + d.1, current.2 + d.2)).
  assert (closed_set st' = closed_set st
          ∧ (∀ x, x ∈ (open_set st).*2 → x ∈ (open_set st').*2)
          ∧ (free g0 obstacle_value n0 →
             n0 ∈ closed_set st' ∨ n0 ∈ (open_set st').*2)) as (Hcl & Hmono & Hkey).
  { unfold relax in Hrelax. fold n0 in Hrelax.
    destruct (in_bounds _ _ n0) eqn:Hb; simpl in Hrelax.
    2:{ injection Hrelax as <-. split_and!; [done..|].
        intros [Hin%in_bounds_inside _]. congruence. }
    rewrite (inv_grid _ _ _ _ _ Hinv) in Hrelax.
    destruct (grid_get g0 n0) as [label|] eqn:Hlabel; [|done].
    destruct (decide (label = obstacle_value)) as [->|Hlab].
    { injection Hrelax as <-. split_and!; [done..|].
      intros (_ & label' & Hl' & Hne). congruence. }
    destruct (decide (n0 ∈ closed_set st)) as [Hc|Hnc].
    { injection Hrelax as <-. split_and!; [done..|]. by left. }
    destruct (g_score st !! current) as [g|]; [|done].
    destruct (negb (in_open n0 (open_set st))) eqn:Hopen; simpl in Hrelax.
    - injection Hrelax as <-. simpl. split_and!; [done|..].
      + intros x Hx. apply elem_of_heappush_cells. by right.
      + intros _. right. apply elem_of_heappush_cells. by left.
    - apply negb_false_iff, bool_decide_eq_true in Hopen.
      destruct (improves _ _); injection Hrelax as <-; simpl.
      + split_and!; [done|..].
        * intros x Hx. apply elem_of_heappush_cells. by right.
        * intros _. right. apply elem_of_heappush_cells. by left.
      + split_and!; [done..|]. by right. }
  intros c n Hc Hm Hfree. rewrite Hcl in *.
  destruct (Hcov c n Hc Hm Hfree) as [?|[?|[-> Hd]]]; [by left|right; left; auto|].
  apply elem_of_cons in Hd as [Hd|Hd]; [|by right; right].
  assert (n = n0) as ->.
  { destruct n as [n1 n2], d as [d1 d2]. injection Hd as <- <-.
    unfold n0. simpl. f_equal; lia. }
  destruct (Hkey Hfree); auto.
Qed.

Lemma expand_covered current ds :
  ∀ st st', inv st → start ∈ closed_set st → current ∈ closed_set st →
    ds ⊆ directions → covered ds current st →
    expand (n_rows g0) (n_cols g0) goal obstacle_value current ds st = (None, st') →
    covered [] current st'.
Proof.
  induction ds as [|d ds IH]; intros st st' Hinv Hs Hc Hds Hcov Hex; simpl in Hex.
  { by injection Hex as <-. }
  destruct (relax_inv g0 start goal obstacle_value Hrect st current d)
    as (st1 & Hr & Hinv1 & Hcl1 & _); [done..|set_solver|].
  rewrite Hr in Hex.
  apply (IH st1); [done|congruence..|set_solver| |done].
  exact (relax_covered st current d ds st1 Hinv Hcov Hr).
Qed.

(** When the loop runs out of frontier, the closed set holds start and
    every free neighbor of its cells. *)
Lemma search_None_covered fuel :
  ∀ st st', inv st →
    start ∈ closed_set st ∨ (∃ f, open_set st = [(f, start)]) →
    covered [] start st →
    search (n_rows g0) (n_cols g0) start goal obstacle_value fuel st
      = Some (Returned None, st') →
    inv st' ∧ start ∈ closed_set st' ∧ covered [] start st' ∧ open_set st' = [].
Proof.
  induction fuel as [|fuel IH]; intros st st' Hinv Hst Hcov Hrun; [done|].
  destruct (open_set st) as [|[f current] rest] eqn:Hopen.
  { rewrite search_empty in Hrun by done. injection Hrun as <-.
    split_and!; [done| |done..]. by destruct Hst as [?|[? ?]]. }
  destruct (decide (current = goal)) as [->|Hne].
  { rewrite (search_goal _ _ _ _ _ _ _ _ _ Hopen) in Hrun.
    by destruct (walk_back _ _ _ _). }
  rewrite (search_next _ _ _ _ _ _ _ _ _ _ Hopen Hne) in Hrun.
  pose proof (inv_close g0 start goal obstacle_value Hrect st f current rest Hinv Hopen Hne)
    as Hinv1.
  set (st1 := close current (popped rest st)) in *.
  assert (current ∈ closed_set st1) as Hc1 by (simpl; set_solver).
  assert (start ∈ closed_set st1) as Hs1.
  { simpl. destruct Hst as [Hst|[f' [= _ -> _]]]; set_solver. }
  assert (covered directions current st1) as Hcov1.
  { intros c n Hc Hm Hfree. simpl in *.
    apply elem_of_union in Hc as [->%elem_of_singleton|Hc].
    - right; right. done.
    - destruct (Hcov c n Hc Hm Hfree) as [?|[Hn|[_ []%elem_of_nil]]]; [left; set_solver|].
      rewrite Hopen, fmap_cons in Hn. simpl in Hn.
      apply elem_of_cons in Hn as [->|Hn]; [left; set_solver|by right; left]. }
  destruct (expand_inv g0 start goal obstacle_value Hrect current directions st1)
    as (st2 & Hex & Hinv2 & Hcl2 & _); [done..|].
  rewrite Hex in Hrun.
  apply (IH st2); [done|left; by rewrite Hcl2| |done].
  intros c n Hc Hm Hfree.
  destruct (expand_covered current directions st1 st2 Hinv1 Hs1 Hc1 (reflexivity _)
              Hcov1 Hex c n Hc Hm Hfree) as [?|[?|[_ []%elem_of_nil]]]; auto.
Qed.

(** A sequence of moves through free cells that starts in such a closed
    set stays in it. *)
Lemma covered_moves st :
  covered [] start st → open_set st = [] →
  ∀ p a, head p = Some a → a ∈ closed_set st → moves p →
    Forall (free g0 obstacle_value) p → Forall (λ c, c ∈ closed_set st) p.
Proof.
  intros Hcov Hopen. induction p as [|x p IH]; intros a Hhead Ha Hm Hfree; [done|].
  injection Hhead as ->. constructor; [done|].
  destruct p as [|y p]; [done|].
  destruct Hm as [Hxy Hm]. apply Forall_cons in Hfree as [_ Hfree].
  apply (IH y); [done| |done..].
  pose proof Hfree as [Hy _]%Forall_cons.
  destruct (Hcov a y Ha Hxy Hy) as [?|[Hin|[_ []%elem_of_nil]]]; [done|].
  rewrite Hopen in Hin. by apply elem_of_nil in Hin.
Qed.
End Completeness.

(** When the call returns None, nothing leads from start to goal. *)
Lemma returned_None_unreachable g start goal obstacle_value p :
  rectangular g → returns g start goal obstacle_value (Returned None) →
  ¬ connects g obstacle_value start goal p.
Proof.
  intros Hrect [st [fuel Hrun]]%returns_ends (Hhead & Hlast & Hmoves & Hfree).
  rewrite pathfinder_rectangular in Hrun by done.
  destruct (inv_initial g start goal obstacle_value) as [Hinv _].
  assert (covered g obstacle_value [] start (initial g start goal)) as Hcov0.
  { intros c n Hc. by apply not_elem_of_empty in Hc. }
  assert (start ∈ closed_set (initial g start goal)
          ∨ ∃ f, open_set (initial g start goal) = [(f, start)]) as Hst0.
  { right. by eexists. }
  pose proof (search_None_covered g start goal obstacle_value Hrect fuel
                (initial g start goal) st Hinv Hst0 Hcov0 Hrun)
    as (Hinv' & Hs & Hcov & Hopen).
  pose proof (covered_moves g start obstacle_value st Hcov Hopen p start
                Hhead Hs Hmoves Hfree) as Hclosed.
  rewrite Forall_forall in Hclosed.
  destruct (inv_closed _ _ _ _ _ Hinv' goal) as (_ & Hne & _); [|done].
  by eapply Hclosed, last_Some_elem_of.
Qed.

Lemma route_connects g start goal obstacle_value p :
  free g obstacle_value start → route g start goal obstacle_value p →
  connects g obstacle_value start goal p.
Proof.
  intros Hstart (Hh & Hl & Hm & _ & Hf). split_and!; try done.
  eapply Forall_impl; [exact Hf|]. by intros c [->|?].
Qed.

(** X1: on a well-formed grid, when some sequence of moves through cells
    that are not obstacles leads from start to goal, the call returns a
    path, and the path is such a sequence. *)
Theorem reachable_goal_returns_path g start goal obstacle_value p :
  rectangular g → connects g obstacle_value start goal p →
  ∃ q, returns g start goal obstacle_value (Returned (Some q))
       ∧ connects g obstacle_value start goal q.
Proof.
  intros Hrect Hp.
  assert (free g obstacle_value start) as Hstart.
  { destruct Hp as (Hhead & _ & _ & Hfree).
    rewrite Forall_forall in Hfree. by eapply Hfree, head_Some_elem_of. }
  destruct (pathfinder_total g start goal obstacle_value Hrect) as (r & st & Hends & Hpost).
  assert (returns g start goal obstacle_value (Returned r)) as Hret
    by (apply returns_ends; eauto).
  destruct r as [q|].
  - exists q. split; [done|]. apply route_connects; [done|].
    by destruct Hpost as (_ & _ & ?).
  - destruct (returned_None_unreachable g start goal obstacle_value p Hrect Hret Hp).
Qed.

Lemma reachable_goal_returns_path_witness :
  ∃ q, returns [[0; 2; 0]; [0; 0; 0]] (0, 0) (0, 2) 2 (Returned (Some q))
       ∧ connects [[0; 2; 0]; [0; 0; 0]] 2 (0, 0) (0, 2) q.
Proof.
  apply (reachable_goal_returns_path _ _ _ _ [(0, 0); (1, 0); (1, 1); (1, 2); (0, 2)]).
  - repeat constructor.
  - split_and!; [reflexivity..| |].
    + unfold moves, legal_move, directions. simpl. set_solver.
    + repeat (apply Forall_cons_2); try apply Forall_nil_2;
        (split; [unfold inside, n_rows, n_cols; simpl; lia|]);
        eexists; (split; [reflexivity|lia]).
Defined.

(** ** How long a returned path can be *)

Lemma legal_move_chebyshev a b : legal_move a b → chebyshev_distance a b <= 1.
Proof.
  intros H%direction_cases. unfold chebyshev_distance. simpl in H. lia.
Qed.

Lemma moves_chebyshev p :
  ∀ a b, head p = Some a → last p = Some b → moves p →
    chebyshev_distance a b <= Z.of_nat (length p) - 1.
Proof.
  induction p as [|x p IH]; intros a b Hhead Hlast Hm; [done|].
  injection Hhead as ->. destruct p as [|y p].
  - injection Hlast as ->. unfold chebyshev_distance. simpl. lia.
  - destruct Hm as [Hxy Hm]. rewrite last_cons_cons in Hlast.
    pose proof (IH y b (eq_refl _) Hlast Hm) as Hyb.
    pose proof (legal_move_chebyshev a y Hxy).
    pose proof (chebyshev_triangle a y b).
    simpl length in *. lia.
Qed.

Lemma length_bind_const {A B} (f : A → list B) (k : nat) (l : list A) :
  (∀ x, length (f x) = k) → length (l ≫= f) = (length l * k)%nat.
Proof.
  intros Hf. induction l as [|x l IH]; [done|].
  rewrite bind_cons, length_app, Hf, IH. simpl. lia.
Qed.

Lemma length_cells_of g :
  Z.of_nat (length (cells_of g)) = n_rows g * n_cols g.
Proof.
  unfold cells_of. rewrite (length_bind_const _ (Z.to_nat (n_cols g))).
  - rewrite length_seqZ. unfold n_rows, n_cols. lia.
  - intros r. by rewrite length_fmap, length_seqZ.
Qed.

(** X2: on a well-formed grid with start and goal on cells that are not
    obstacles, a returned path has at least as many edges as the Chebyshev
    distance from start to goal, and at most as many cells as the grid. *)
Theorem returned_path_length_bounds g start goal obstacle_value p :
  rectangular g → free g obstacle_value start → free g obstacle_value goal →
  returns g start goal obstacle_value (Returned (Some p)) →
  chebyshev_distance start goal <= Z.of_nat (length p) - 1
  ∧ Z.of_nat (length p) <= n_rows g * n_cols g.
Proof.
  intros Hrect Hstart _ [st Hends]%returns_ends.
  destruct (pathfinder_post _ _ _ _ _ _ Hrect Hends) as (r & [= <-] & _ & _ & Hroute).
  destruct Hroute as (Hhead & Hlast & Hmoves & Hnd & Hfree).
  split; [by apply moves_chebyshev|].
  rewrite <- length_cells_of. apply inj_le.
  apply submseteq_length, NoDup_submseteq; [done|].
  intros c Hc. apply elem_of_cells_of.
  rewrite Forall_forall in Hfree. by destruct (Hfree c Hc) as [->|?]; [destruct Hstart|destruct H].
Qed.

Lemma returned_path_length_bounds_witness :
  chebyshev_distance (0, 0) (0, 4) <= Z.of_nat (length wall_path) - 1
  ∧ Z.of_nat (length wall_path) <= n_rows wall_grid * n_cols wall_grid.
Proof.
  apply (returned_path_length_bounds wall_grid (0, 0) (0, 4) 2).
  - repeat constructor.
  - split; [unfold inside, n_rows, n_cols; simpl; lia|].
    eexists. split; [reflexivity|lia].
  - split; [unfold inside, n_rows, n_cols; simpl; lia|].
    eexists. split; [reflexivity|lia].
  - exists 40%nat. vm_compute. reflexivity.
Defined.

(** ** The heuristic against the paths that are returned *)

Lemma manhattan_chebyshev a b :
  chebyshev_distance a b <= manhattan_distance a b <= 2 * chebyshev_distance a b.
Proof. unfold chebyshev_distance, manhattan_distance. lia. Qed.

(** X3: on a well-formed grid without obstacles, the heuristic at start
    lies between the number of edges of the returned path and twice that
    number, and is above the number of edges whenever start and goal
    differ in row and in column: manhattan_distance overestimates the
    cost of diagonal ways. *)
Theorem heuristic_overestimates g start goal obstacle_value :
  rectangular g → obstacle_free g obstacle_value →
  inside g start → inside g goal →
  ∃ p, returns g start goal obstacle_value (Returned (Some p))
       ∧ Z.of_nat (length p) - 1 <= manhattan_distance start goal
           <= 2 * (Z.of_nat (length p) - 1)
       ∧ (start.1 ≠ goal.1 → start.2 ≠ goal.2 →
          Z.of_nat (length p) - 1 < manhattan_distance start goal).
Proof.
  intros Hrect Hfree Hstart Hgoal.
  pose proof (chebyshev_nonneg start goal) as Hnn.
  destruct (on_track_returns g start goal obstacle_value Hrect Hfree Hgoal
              (Z.to_nat (chebyshev_distance start goal)) 0 start
              (initial g start goal)) as (fuel & p & st & Hrun & Hlen);
    [by apply on_track_initial|lia|].
  exists p. split; [|split].
  - exists fuel. by rewrite pathfinder_rectangular, Hrun.
  - pose proof (manhattan_chebyshev start goal). lia.
  - intros H1 H2. unfold manhattan_distance, chebyshev_distance in *. lia.
Qed.

Lemma heuristic_overestimates_witness :
  ∃ p, returns [[0; 1; 0]; [1; 0; 0]; [0; 0; 1]] (0, 0) (2, 2) 2 (Returned (Some p))
       ∧ Z.of_nat (length p) - 1 <= manhattan_distance (0, 0) (2, 2)
           <= 2 * (Z.of_nat (length p) - 1)
       ∧ ((0, 0).1 ≠ (2, 2).1 → (0, 0).2 ≠ (2, 2).2 →
          Z.of_nat (length p) - 1 < manhattan_distance (0, 0) (2, 2)).
Proof.
  apply heuristic_overestimates.
  - repeat constructor.
  - unfold obstacle_free. repeat (apply Forall_cons_2); try apply Forall_nil_2; lia.
  - unfold inside, n_rows, n_cols; simpl; lia.
  - unfold inside, n_rows, n_cols; simpl; lia.
Defined.

(** X4: a returned path need not be a shortest one.  With one obstacle in
    a grid of three rows of four, the call returns four moves where three
    lead from start to goal. *)
Theorem returned_path_not_always_shortest :
  ∃ g start goal obstacle_value p q,
    rectangular g
    ∧ returns g start goal obstacle_value (Returned (Some p))
    ∧ connects g obstacle_value start goal q
    ∧ (length q < length p)%nat.
Proof.
  exists [[0; 0; 0; 0]; [0; 0; 2; 0]; [0; 0; 0; 0]], (2, 3), (0, 0), 2,
    [(2, 3); (1, 3); (0, 2); (0, 1); (0, 0)], [(2, 3); (2, 2); (1, 1); (0, 0)].
  split_and!.
  - repeat constructor.
  - exists 40%nat. vm_compute. reflexivity.
  - split_and!; [reflexivity..| |].
    + unfold moves, legal_move, directions. simpl. set_solver.
    + repeat (apply Forall_cons_2); try apply Forall_nil_2;
        (split; [unfold inside, n_rows, n_cols; simpl; lia|]);
        eexists; (split; [reflexivity|lia]).
  - simpl. lia.
Qed.

(** ** Exceptions *)

Lemma relax_keyed rows cols goal obstacle_value current st d :
  is_Some (g_score st !! current) →
  (∀ e, e ∈ open_set st → is_Some (g_score st !! e.2)) →
  let r := relax rows cols goal obstacle_value current st d in
  r.1 ≠ Some KeyError
  ∧ is_Some (g_score r.2 !! current)
  ∧ (∀ e, e ∈ open_set r.2 → is_Some (g_score r.2 !! e.2)).
Proof.
  intros [g Hg] Hkeyed. unfold relax.
  set (n := (current.1 + d.1, current.2 + d.2)).
  destruct (in_bounds _ _ n); simpl; [|by eauto].
  destruct (grid_get (grid st) n) as [label|]; simpl; [|by eauto].
  destruct (decide (label = obstacle_value)); simpl; [by eauto|].
  destruct (decide (n ∈ closed_set st)); simpl; [by eauto|].
  rewrite Hg. destruct (negb _ || _); simpl; [|by eauto].
  split_and!; [done|..].
  - rewrite lookup_insert. case_decide; eauto.
  - intros e [->|He]%elem_of_heappush; simpl.
    + rewrite lookup_insert_eq. eauto.
    + rewrite lookup_insert. case_decide; eauto.
Qed.

Lemma expand_keyed rows cols goal obstacle_value current ds :
  ∀ st, is_Some (g_score st !! current) →
    (∀ e, e ∈ open_set st → is_Some (g_score st !! e.2)) →
    let r := expand rows cols goal obstacle_value current ds st in
    r.1 ≠ Some KeyError
    ∧ (∀ e, e ∈ open_set r.2 → is_Some (g_score r.2 !! e.2)).
Proof.
  induction ds as [|d ds IH]; intros st Hc Hkeyed; simpl; [done|].
  destruct (relax_keyed rows cols goal obstacle_value current st d Hc Hkeyed)
    as (Hne & Hc1 & Hkeyed1).
  destruct (relax _ _ _ _ _ _ _) as [[e|] st1]; simpl in *; [|by apply IH].
  split; [done|]. exact Hkeyed1.
Qed.

Lemma search_keyed rows cols start goal obstacle_value fuel :
  ∀ st out st', (∀ e, e ∈ open_set st → is_Some (g_score st !! e.2)) →
    search rows cols start goal obstacle_value fuel st = Some (out, st') →
    out ≠ Raised KeyError.
Proof.
  induction fuel as [|fuel IH]; intros st out st' Hkeyed Hrun; [done|].
  destruct (open_set st) as [|[f current] rest] eqn:Hopen.
  { rewrite search_empty in Hrun by done. by injection Hrun as <- _. }
  destruct (decide (current = goal)) as [->|Hne].
  { rewrite (search_goal _ _ _ _ _ _ _ _ _ Hopen) in Hrun.
    destruct (walk_back _ _ _ _); [|done]. by injection Hrun as <- _. }
  rewrite (search_next _ _ _ _ _ _ _ _ _ _ Hopen Hne) in Hrun.
  destruct (expand_keyed rows cols goal obstacle_value current directions
              (close current (popped rest st))) as [Hne' Hkeyed'].
  { simpl. apply (Hkeyed (f, current)). left. }
  { simpl. intros e He. apply Hkeyed. by right. }
  destruct (expand _ _ _ _ _ _ _) as [[e|] st1]; simpl in *.
  - injection Hrun as <- _. congruence.
  - by eapply IH.
Qed.

(** X5: whatever the grid, start and goal, the only exception the call
    can end with is IndexError (the lookup [g_score[current]] of line 86
    never misses), and it ends with one only if the grid is not well
    formed. *)
Theorem only_IndexError_is_raised g start goal obstacle_value e :
  returns g start goal obstacle_value (Raised e) →
  e = IndexError ∧ ¬ rectangular g.
Proof.
  intros Hret. split.
  - destruct Hret as [fuel Hrun]. unfold pathfinder in Hrun.
    destruct (getitem g 0); [|by injection Hrun as <-].
    destruct (search _ _ _ _ _ _ _) as [[out st]|] eqn:Hsearch; [|done].
    injection Hrun as ->. apply search_keyed in Hsearch.
    + by destruct e.
    + simpl. intros x ->%list_elem_of_singleton. simpl.
      rewrite lookup_singleton_eq. eauto.
  - intros Hrect. apply returns_ends in Hret as [st Hends].
    by destruct (pathfinder_post _ _ _ _ _ _ Hrect Hends) as (r & ? & _).
Qed.

Lemma only_IndexError_is_raised_witness :
  IndexError = IndexError ∧ ¬ rectangular [[0; 0]; [0]].
Proof.
  apply (only_IndexError_is_raised [[0; 0]; [0]] (0, 0) (5, 5) 2).
  exists 10%nat. vm_compute. reflexivity.
Defined.

(** ** generate_grid *)

Lemma randint_in a b draws i :
  a <= b → ∃ v, randint a b draws i = (inr v, S i) ∧ a <= v <= b.
Proof.
  intros H. unfold randint. rewrite decide_True by done.
  eexists. split; [done|].
  pose proof (Z.mod_pos_bound (draws i) (b - a + 1)). lia.
Qed.

Lemma randint_empty a b draws i :
  b < a → randint a b draws i = (inl ValueError, i).
Proof. intros H. unfold randint. by rewrite decide_False by lia. Qed.

Lemma rand_bind_ok {A B} (m : rand A) (k : A → rand B) draws i x j :
  m draws i = (inr x, j) → rand_bind m k draws i = k x draws j.
Proof. intros H. unfold rand_bind. by rewrite H. Qed.

Lemma rand_bind_fail {A B} (m : rand A) (k : A → rand B) draws i e j :
  m draws i = (inl e, j) → rand_bind m k draws i = (inl e, j).
Proof. intros H. unfold rand_bind. by rewrite H. Qed.

(** A comprehension over a computation that does not raise does not
    raise, and has one item per round. *)
Lemma rand_list_ok {A} (P : A → Prop) (m : rand A) (n : nat) :
  (∀ draws i, ∃ x j, m draws i = (inr x, j) ∧ P x) →
  ∀ draws i, ∃ l j, rand_list n m draws i = (inr l, j) ∧ length l = n ∧ Forall P l.
Proof.
  intros Hm. induction n as [|n IH]; intros draws i; simpl.
  { exists [], i. by split_and!. }
  destruct (Hm draws i) as (x & j & Hx & HP).
  destruct (IH draws j) as (l & j' & Hl & Hlen & HPl).
  exists (x :: l), j'. split_and!; [|by simpl; f_equal|by constructor].
  rewrite (rand_bind_ok _ _ _ _ _ _ Hx), (rand_bind_ok _ _ _ _ _ _ Hl). done.
Qed.

Lemma getitem_in_range {A} (l : list A) (i : Z) :
  0 <= i < Z.of_nat (length l) → getitem l i = l !! Z.to_nat i.
Proof. intros H. unfold getitem. by rewrite decide_True. Qed.

Lemma getitem_beyond {A} (l : list A) (i : Z) :
  Z.of_nat (length l) <= i → getitem l i = None.
Proof.
  intros H. unfold getitem. rewrite !decide_False by lia. done.
Qed.

Lemma setitem_in_range {A} (l : list A) (i : Z) (x : A) :
  0 <= i < Z.of_nat (length l) → setitem l i x = Some (<[Z.to_nat i := x]> l).
Proof. intros H. unfold setitem. by rewrite decide_True. Qed.

(** A store of a label at a cell of a square grid: the grid stays square,
    the cell reads the label and the other cells read what they did. *)
Lemma square_store size g r c x row :
  square size g → 0 <= r < size → 0 <= c < size → 0 <= x <= 2 →
  getitem g r = Some row →
  ∃ row' g', setitem row c x = Some row' ∧ setitem g r row' = Some g'
    ∧ square size g' ∧ grid_get g' (r, c) = Some x
    ∧ (∀ c', 0 <= c'.1 → 0 <= c'.2 → c' ≠ (r, c) → grid_get g' c' = grid_get g c').
Proof.
  intros [Hlen Hrows] Hr Hc Hx Hrow.
  rewrite getitem_in_range in Hrow by lia.
  assert (Z.of_nat (length row) = size ∧ Forall (λ v, 0 <= v <= 2) row) as [Hrl Hrv].
  { rewrite Forall_forall in Hrows. by eapply Hrows, list_elem_of_lookup_2. }
  exists (<[Z.to_nat c := x]> row), (<[Z.to_nat r := <[Z.to_nat c := x]> row]> g).
  split_and!.
  - apply setitem_in_range. lia.
  - apply setitem_in_range. lia.
  - split; [by rewrite length_insert|].
    apply Forall_insert; [done|]. split; [by rewrite length_insert|].
    by apply Forall_insert.
  - unfold grid_get. simpl.
    rewrite getitem_in_range by (rewrite length_insert; lia).
    rewrite list_lookup_insert_eq by lia.
    rewrite getitem_in_range by (rewrite length_insert; lia).
    apply list_lookup_insert_eq. lia.
  - intros [r' c'] Hr' Hc' Hne. unfold grid_get. simpl in *.
    destruct (decide (r' < size)) as [Hlt|Hge].
    2:{ rewrite !getitem_beyond by (rewrite ?length_insert; lia). done. }
    rewrite !getitem_in_range by (rewrite ?length_insert; lia).
    destruct (decide (r' = r)) as [->|Hrr].
    + rewrite list_lookup_insert_eq by lia. rewrite Hrow.
      destruct (decide (c' < size)) as [Hlt'|Hge'].
      2:{ rewrite !getitem_beyond by (rewrite ?length_insert; lia). done. }
      rewrite !getitem_in_range by (rewrite ?length_insert; lia).
      apply list_lookup_insert_ne. intros E. apply Hne. f_equal. lia.
    + rewrite list_lookup_insert_ne; [done|]. lia.
Qed.

Lemma square_getitem size g r :
  square size g → 0 <= r < size → is_Some (getitem g r).
Proof. intros [Hlen _] Hr. apply getitem_Some. lia. Qed.

Lemma square_rectangular size g :
  1 <= size → square size g → rectangular g ∧ n_rows g = size ∧ n_cols g = size.
Proof.
  intros Hsize [Hlen Hrows]. destruct g as [|row0 g]; [simpl in Hlen; lia|].
  pose proof Hrows as [[Hl0 _] _]%Forall_cons.
  split_and!; [|done|done].
  simpl. eapply Forall_impl; [exact Hrows|]. intros row [Hl _]. simpl in Hl. lia.
Qed.

(** The loop of lines 13 and 14 on a square grid: nothing is raised, the
    grid stays square, obstacles stay, and one round leaves an obstacle. *)
Lemma place_obstacles_ok (n : nat) :
  ∀ size g draws i, 1 <= size → square size g →
    ∃ g' j, place_obstacles n size g draws i = (inr g', j)
      ∧ square size g'
      ∧ (∀ c, 0 <= c.1 → 0 <= c.2 → grid_get g c = Some 2 → grid_get g' c = Some 2)
      ∧ ((0 < n)%nat →
         ∃ c, 0 <= c.1 < size ∧ 0 <= c.2 < size ∧ grid_get g' c = Some 2).
Proof.
  induction n as [|n IH]; intros size g draws i Hsize Hsq; simpl.
  { exists g, i. split_and!; [done..|lia]. }
  destruct (randint_in 0 (size - 1) draws i) as (r & Hr & Hrr); [lia|].
  rewrite (rand_bind_ok _ _ _ _ _ _ Hr).
  destruct (square_getitem size g r Hsq) as [row Hrow]; [lia|]. rewrite Hrow.
  destruct (randint_in 0 (size - 1) draws (S i)) as (c & Hc & Hcr); [lia|].
  rewrite (rand_bind_ok _ _ _ _ _ _ Hc).
  destruct (square_store size g r c 2 row Hsq) as (row' & g1 & -> & -> & Hsq1 & Hget & Hother);
    [lia..|done|].
  destruct (IH size g1 draws (S (S i)) Hsize Hsq1) as (g' & j & Hrun & Hsq' & Hkeep & _).
  exists g', j. split_and!; [done..| |].
  - intros c' H1 H2 Hc'. apply Hkeep; [done..|].
    destruct (decide (c' = (r, c))) as [->|Hne]; [done|].
    by rewrite Hother.
  - intros _. exists (r, c). split_and!; [simpl; lia..|].
    apply Hkeep; [simpl; lia..|done].
Qed.

Lemma generate_grid_runs size draws i :
  3 <= size →
  ∃ g j, generate_grid size draws i = (inr g, j) ∧ square size g
    ∧ ∃ c, 0 <= c.1 < size ∧ 0 <= c.2 < size ∧ grid_get g c = Some 2.
Proof.
  intros Hsize. unfold generate_grid.
  assert (1 <= size * size / 8) as Hcount.
  { apply Z.div_le_lower_bound; nia. }
  destruct (randint_in 1 (size * size / 8) draws i Hcount) as (count & Hc & Hcr).
  rewrite (rand_bind_ok _ _ _ _ _ _ Hc).
  destruct (rand_list_ok
              (λ row, length row = Z.to_nat size ∧ Forall (λ v, 0 <= v <= 2) row)
              (rand_list (Z.to_nat size) (randint 0 2)) (Z.to_nat size)) with
    (draws := draws) (i := S i) as (g & j & Hg & Hlen & Hrows).
  { intros d k.
    destruct (rand_list_ok (λ v, 0 <= v <= 2) (randint 0 2) (Z.to_nat size))
      with (draws := d) (i := k) as (row & k' & Hrow & Hl & Hv); [|by eauto 6].
    intros d' k''. destruct (randint_in 0 2 d' k'') as (v & Hv & ?); [lia|eauto]. }
  rewrite (rand_bind_ok _ _ _ _ _ _ Hg).
  assert (square size g) as Hsq.
  { split; [lia|]. eapply Forall_impl; [exact Hrows|]. intros row [? ?]. split; [lia|done]. }
  destruct (place_obstacles_ok (Z.to_nat count) size g draws j) as
    (g' & j' & Hrun & Hsq' & _ & Hobst); [lia|done|].
  exists g', j'. split_and!; [done..|]. apply Hobst. lia.
Qed.

(** X6: for a size of 3 or more, whatever is drawn, generate_grid returns
    a grid of [size] rows of [size] labels among 0, 1 and 2, of which one
    at least is the obstacle label 2. *)
Theorem generate_grid_square size draws i :
  3 <= size →
  ∃ g j, generate_grid size draws i = (inr g, j)
    ∧ rectangular g ∧ n_rows g = size ∧ n_cols g = size
    ∧ Forall (Forall (λ v, 0 <= v <= 2)) g
    ∧ ∃ c, inside g c ∧ grid_get g c = Some 2.
Proof.
  intros Hsize.
  destruct (generate_grid_runs size draws i Hsize) as (g & j & Hrun & Hsq & c & H1 & H2 & Hc).
  destruct (square_rectangular size g) as (Hrect & Hnr & Hnc); [lia|done|].
  exists g, j. split_and!; try done.
  - destruct Hsq as [_ Hrows]. eapply Forall_impl; [exact Hrows|]. by intros row [_ ?].
  - exists c. split; [|done]. unfold inside. by rewrite Hnr, Hnc.
Qed.

Lemma generate_grid_square_witness :
  ∃ g j, generate_grid 3 (λ n, Z.of_nat n) 0%nat = (inr g, j)
    ∧ rectangular g ∧ n_rows g = 3 ∧ n_cols g = 3
    ∧ Forall (Forall (λ v, 0 <= v <= 2)) g
    ∧ ∃ c, inside g c ∧ grid_get g c = Some 2.
Proof. apply generate_grid_square. lia. Defined.

(** X7: for a size of 2 or less, negative sizes included, generate_grid
    raises ValueError: the range of the obstacle count, or of the
    subscripts, is empty. *)
Theorem generate_grid_small_size size draws i :
  size <= 2 → ∃ j, generate_grid size draws i = (inl ValueError, j).
Proof.
  intros Hsize. unfold generate_grid.
  destruct (decide (-2 <= size)) as [Hge|Hlt].
  - assert (size * size / 8 = 0) as -> by (apply Z.div_small; nia).
    eexists. apply rand_bind_fail. by apply randint_empty.
  - assert (1 <= size * size / 8) as Hcount by (apply Z.div_le_lower_bound; nia).
    destruct (randint_in 1 (size * size / 8) draws i Hcount) as (count & Hc & Hcr).
    rewrite (rand_bind_ok _ _ _ _ _ _ Hc).
    replace (Z.to_nat size) with 0%nat by lia. simpl rand_list.
    rewrite (rand_bind_ok _ _ draws (S i) [] (S i)) by done.
    destruct (Z.to_nat count) as [|n] eqn:E; [lia|]. simpl.
    eexists. apply rand_bind_fail. apply randint_empty. lia.
Qed.

Lemma generate_grid_small_size_witness :
  ∃ j, generate_grid 2 (λ n, Z.of_nat n) 0%nat = (inl ValueError, j).
Proof. apply generate_grid_small_size. lia. Defined.

(** ** The set-up of the program *)

Lemma assign_ok size g c x draws i :
  square size g → 0 <= c.1 < size → 0 <= c.2 < size → 0 <= x <= 2 →
  ∃ g', assign g c x draws i = (inr g', i)
    ∧ square size g' ∧ grid_get g' c = Some x
    ∧ (∀ c', 0 <= c'.1 → 0 <= c'.2 → c' ≠ c → grid_get g' c' = grid_get g c').
Proof.
  intros Hsq H1 H2 Hx. destruct c as [r c]. simpl in *.
  destruct (square_getitem size g r Hsq H1) as [row Hrow].
  destruct (square_store size g r c x row Hsq H1 H2 Hx Hrow)
    as (row' & g' & Hs1 & Hs2 & Hsq' & Hget & Hother).
  exists g'. split_and!; [|done..].
  unfold assign, grid_set. simpl. by rewrite Hrow, Hs1, Hs2.
Qed.

(** The main block, whatever is drawn: a grid of 20 by 20, start at
    (0, 0) and a goal off the first row and column, both on label 0. *)
Lemma main_setup_runs draws :
  ∃ g goal j, main_setup draws 0%nat = (inr (g, (0, 0), goal), j)
    ∧ square 20 g ∧ 1 <= goal.1 <= 19 ∧ 1 <= goal.2 <= 19
    ∧ grid_get g (0, 0) = Some 0 ∧ grid_get g goal = Some 0.
Proof.
  unfold main_setup.
  destruct (generate_grid_runs 20 draws 0%nat) as (g & j & Hg & Hsq & _); [lia|].
  rewrite (rand_bind_ok _ _ _ _ _ _ Hg).
  destruct (randint_in 1 19 draws j) as (r & Hr & Hrr); [lia|].
  change (20 - 1) with 19. rewrite (rand_bind_ok _ _ _ _ _ _ Hr).
  destruct (randint_in 1 19 draws (S j)) as (c & Hc & Hcr); [lia|].
  rewrite (rand_bind_ok _ _ _ _ _ _ Hc).
  destruct (assign_ok 20 g (0, 0) 0 draws (S (S j)) Hsq) as (g1 & Ha1 & Hsq1 & Hget1 & _);
    [simpl; lia..|].
  rewrite (rand_bind_ok _ _ _ _ _ _ Ha1).
  destruct (assign_ok 20 g1 (r, c) 0 draws (S (S j)) Hsq1) as (g2 & Ha2 & Hsq2 & Hget2 & Hother);
    [simpl; lia..|].
  rewrite (rand_bind_ok _ _ _ _ _ _ Ha2).
  exists g2, (r, c), (S (S j)). split_and!; try done; try (simpl; lia).
  rewrite Hother; [done|simpl; lia..|]. intros [= ? ?]. lia.
Qed.

Lemma square_free size g c :
  1 <= size → square size g → 0 <= c.1 < size → 0 <= c.2 < size →
  grid_get g c = Some 0 → free g 2 c.
Proof.
  intros Hsize Hsq H1 H2 Hget.
  destruct (square_rectangular size g Hsize Hsq) as (_ & Hnr & Hnc).
  split; [unfold inside; by rewrite Hnr, Hnc|]. exists 0. split; [done|lia].
Qed.

(** X8: whatever is drawn, the main block ends without an exception with
    a well-formed grid of 20 by 20 on which start and goal are different
    cells that are not obstacles; on these the call of pathfinder made by
    the Find Path button raises nothing, and it returns a sequence of
    moves from start to goal through cells that are not obstacles when
    there is one, and None when there is none. *)
Theorem main_setup_then_pathfinder draws :
  ∃ g goal j, main_setup draws 0%nat = (inr (g, (0, 0), goal), j)
    ∧ rectangular g ∧ n_rows g = 20 ∧ n_cols g = 20
    ∧ free g 2 (0, 0) ∧ free g 2 goal ∧ goal ≠ (0, 0)
    ∧ ∃ r, returns g (0, 0) goal 2 (Returned r)
           ∧ match r with
             | Some p => connects g 2 (0, 0) goal p
             | None => ∀ p, ¬ connects g 2 (0, 0) goal p
             end.
Proof.
  destruct (main_setup_runs draws) as (g & goal & j & Hrun & Hsq & Hg1 & Hg2 & Hs & Hg).
  destruct (square_rectangular 20 g) as (Hrect & Hnr & Hnc); [lia|done|].
  assert (free g 2 (0, 0)) as Hstart by (apply (square_free 20); simpl; (done || lia)).
  assert (free g 2 goal) as Hgoal by (apply (square_free 20); (done || lia)).
  exists g, goal, j. split_and!; try done.
  { intros ->. simpl in Hg1. lia. }
  destruct (pathfinder_total g (0, 0) goal 2 Hrect) as (r & st & Hends & Hpost).
  assert (returns g (0, 0) goal 2 (Returned r)) as Hret by (apply returns_ends; eauto).
  exists r. split; [done|]. destruct r as [p|].
  - apply route_connects; [done|]. by destruct Hpost as (_ & _ & ?).
  - intros p. by apply returned_None_unreachable.
Qed.

(** ** GridWindow *)

Section Drawing.
Variables (self : window) (path : list cell).

Lemma add_cell_ok labels row col s :
  sheet_for self path row col = inr s →
  add_cell path row col (relayout self labels) =
    (None,
     relayout self
       (labels ++ [Label (if bool_decide ((row, col) ∈ path) then "X" else "")
                         (w_cell_size self) (w_cell_size self) s row col])).
Proof.
  intros H. unfold add_cell.
  change (sheet_for (relayout self labels) path row col)
    with (sheet_for self path row col).
  by rewrite H.
Qed.

(** The inner loop for a row whose cells all have a style sheet. *)
Lemma row_loop_ok row cols :
  (∀ col, col ∈ cols → ∃ s, sheet_for self path row col = inr s) →
  ∀ labels, ∃ ws,
    for_each cols (λ col, add_cell path row col) (relayout self labels)
      = (None, relayout self (labels ++ ws))
    ∧ places ws = (λ col, (row, col)) <$> cols
    ∧ Forall (drawn self path) ws.
Proof.
  induction cols as [|col cols IH]; intros Hs labels; simpl.
  { exists []. by rewrite app_nil_r. }
  destruct (Hs col) as [s Hcol]; [left|].
  rewrite (add_cell_ok labels row col s Hcol).
  destruct (IH (λ c Hc, Hs c (list_elem_of_further _ _ _ Hc))
              (labels ++ [Label (if bool_decide ((row, col) ∈ path) then "X" else "")
                                (w_cell_size self) (w_cell_size self) s row col]))
    as (ws & Hrun & Hplaces & Hdrawn).
  eexists (_ :: ws). rewrite Hrun, <- app_assoc. split_and!; [done| |].
  - simpl. by rewrite Hplaces.
  - constructor; [|done]. by split_and!.
Qed.

(** The two loops over rows and columns whose cells all have a style
    sheet. *)
Lemma grid_loop_ok rows cols :
  (∀ row col, row ∈ rows → col ∈ cols → ∃ s, sheet_for self path row col = inr s) →
  ∀ labels, ∃ ws,
    for_each rows (λ row, for_each cols (λ col, add_cell path row col))
             (relayout self labels)
      = (None, relayout self (labels ++ ws))
    ∧ places ws = (rows ≫= λ row, (λ col, (row, col)) <$> cols)
    ∧ Forall (drawn self path) ws.
Proof.
  induction rows as [|row rows IH]; intros Hs labels; simpl.
  { exists []. by rewrite app_nil_r. }
  destruct (row_loop_ok row cols (λ c Hc, Hs row c (list_elem_of_here _ _) Hc) labels)
    as (ws1 & Hrun1 & Hplaces1 & Hdrawn1).
  rewrite Hrun1.
  destruct (IH (λ r c Hr Hc, Hs r c (list_elem_of_further _ _ _ Hr) Hc) (labels ++ ws1))
    as (ws2 & Hrun2 & Hplaces2 & Hdrawn2).
  exists (ws1 ++ ws2). rewrite Hrun2, <- app_assoc. split_and!; [done| |].
  - unfold places in *. by rewrite fmap_app, Hplaces1, Hplaces2.
  - by apply Forall_app.
Qed.
End Drawing.

Lemma colors_known v : 0 <= v <= 2 → is_Some (colors !! v).
Proof.
  intros H. assert (v = 0 ∨ v = 1 ∨ v = 2) as Hv by lia.
  unfold colors. destruct_or!; subst; simplify_map_eq; eauto.
Qed.

Lemma grid_get_elem_of g c v :
  grid_get g c = Some v → ∃ row, row ∈ g ∧ v ∈ row.
Proof.
  unfold grid_get. destruct (getitem g c.1) as [row|] eqn:Hrow; [|done].
  intros Hv. exists row. split; by eapply getitem_elem_of.
Qed.

Lemma sheet_for_known self path c :
  rectangular (w_grid self) →
  Forall (Forall (λ v, 0 <= v <= 2)) (w_grid self) →
  inside (w_grid self) c → ∃ s, sheet_for self path c.1 c.2 = inr s.
Proof.
  intros Hrect Hlabels Hin. unfold sheet_for.
  repeat case_decide; eauto. case_bool_decide; eauto.
  destruct (grid_get_inside _ c Hrect Hin) as [v Hv].
  replace (c.1, c.2) with c by by destruct c. rewrite Hv.
  destruct (colors_known v) as [color ->]; [|eauto].
  destruct (grid_get_elem_of _ _ _ Hv) as (row & Hrow & Hvr).
  rewrite Forall_forall in Hlabels. specialize (Hlabels row Hrow).
  rewrite Forall_forall in Hlabels. by apply Hlabels.
Qed.

(** create_grid when every cell of the grid has a style sheet. *)
Lemma create_grid_ok self path :
  rectangular (w_grid self) →
  (∀ c, inside (w_grid self) c → ∃ s, sheet_for self (default [] path) c.1 c.2 = inr s) →
  ∃ ws, create_grid self path = (None, relayout self ws)
    ∧ places ws = cells_of (w_grid self)
    ∧ Forall (drawn self (default [] path)) ws.
Proof.
  intros Hrect Hs. unfold create_grid.
  change (w_grid (relayout self [])) with (w_grid self).
  destruct (w_grid self) as [|row0 g] eqn:Hg; [done|].
  change (getitem (row0 :: g) 0) with (Some row0).
  destruct (grid_loop_ok self (default [] path)
              (seqZ 0 (Z.of_nat (length (row0 :: g))))
              (seqZ 0 (Z.of_nat (length row0)))) with (labels := @nil label_widget)
    as (ws & Hrun & Hplaces & Hdrawn).
  { intros row col Hr%elem_of_seqZ Hc%elem_of_seqZ.
    apply (Hs (row, col)). unfold inside, n_rows, n_cols.
    change (default [] (head (row0 :: g))) with row0. cbn [fst snd]. lia. }
  exists ws. split_and!; [|done..].
  change (relayout (relayout self []) ?l) with (relayout self l). exact Hrun.
Qed.



Section Raising.
Variables (self : window) (path : list cell).



End Raising.



Lemma sheet_of_obstacle self path c :
  c ≠ w_start self → c ≠ w_goal self → c ∉ path →
  grid_get (w_grid self) c = Some 2 →
  sheet_for self path c.1 c.2 = inr (style_sheet "black").
Proof.
  intros Hs Hg Hp Hget. unfold sheet_for.
  replace (c.1, c.2) with c by by destruct c.
  rewrite !decide_False by done. rewrite bool_decide_eq_false_2 by done.
  by rewrite Hget.
Qed.



(** X12: whatever is drawn, the window that the main block builds
    ([GridWindow(grid, cell_size=40, start=start, goal=goal)]) is
    constructed without an exception: its layout holds 400 labels of 40
    by 40 without text, one per cell, start in blue and goal in red; and
    its grid is well formed with labels 0, 1 or 2 and start and goal on
    cells that are not obstacles, which is what a click on Find Path
    needs to raise nothing. *)
Theorem main_window_is_drawn draws :
  ∃ g goal j self,
    main_setup draws 0%nat = (inr (g, (0, 0), goal), j)
    ∧ new_window g 40 (0, 0) goal = (None, self)
    ∧ (w_grid self = g ∧ w_start self = (0, 0) ∧ w_goal self = goal)
    ∧ length (grid_layout self) = 400%nat
    ∧ places (grid_layout self) = cells_of g
    ∧ Forall (λ w,
        text w = "" ∧ width w = 40 ∧ height w = 40
        ∧ ((lrow w, lcol w) = (0, 0) → sheet w = style_sheet "blue")
        ∧ ((lrow w, lcol w) = goal → sheet w = style_sheet "red"))
      (grid_layout self)
    ∧ rectangular g ∧ Forall (Forall (λ v, 0 <= v <= 2)) g
    ∧ free g 2 (0, 0) ∧ free g 2 goal.
Proof.
  destruct (main_setup_runs draws) as (g & goal & j & Hrun & Hsq & Hg1 & Hg2 & Hs & Hg).
  destruct (square_rectangular 20 g) as (Hrect & Hnr & Hnc); [lia|done|].
  assert (Forall (Forall (λ v, 0 <= v <= 2)) g) as Hlabels.
  { destruct Hsq as [_ Hrows]. eapply Forall_impl; [exact Hrows|]. by intros row [_ ?]. }
  set (self0 := Window (0, 0) goal g 40 []).
  destruct (create_grid_ok self0 None Hrect) as (ws & Hdraw & Hplaces & Hdrawn).
  { intros c Hc. by apply (sheet_for_known self0). }
  exists g, goal, j, (relayout self0 ws). split_and!; try done.
  - assert (length ws = length (places ws)) as Hlen
      by (unfold places; by rewrite length_fmap).
    simpl grid_layout. rewrite Hlen, Hplaces. apply Nat2Z.inj. simpl w_grid.
    rewrite length_cells_of, Hnr, Hnc. done.
  - eapply Forall_impl; [exact Hdrawn|].
    intros w (Hsheet & Htext & Hw & Hh). simpl in *. unfold sheet_for in Hsheet.
    split_and!; try done.
    + intros Hc. simpl in Hsheet. rewrite decide_True in Hsheet by done. congruence.
    + intros Hc. simpl in Hsheet.
      rewrite decide_False, decide_True in Hsheet; [congruence|done|].
      rewrite Hc. intros ->. simpl in Hg1. lia.
  - apply (square_free 20); simpl; (done || lia).
  - apply (square_free 20); (done || lia).
Qed.
